(** * Huffman coding (src/search/greedy/huffman.cc): shallow embedding

    The translation unit builds a code tree from a vector of [Node*],
    derives a code table from it, and encodes and decodes strings.

    How the C++ is read here:
    - a [Node*] is a value of [Node_ptr]: either [NULL], or the node it
      points to together with the address it lives at.  Nodes are never
      mutated after [leaf] or [merge] filled them in and never shared, so
      the pointed-to tree is carried inside the pointer; the address is
      kept because [huffman] and [swap] compare pointers with [<];
    - [new Node()] takes its address from an allocator [alloc]: the k-th
      allocation of a node returns [alloc k].  The allocator is a parameter
      of everything that allocates;
    - [int] is a 32-bit two's-complement integer: sums are wrapped with
      [int_wrap] (signed overflow is undefined in C++; the wrapped value is
      what the usual targets compute);
    - [std::string] is a [list ascii]; [std::map<char,T>] is a [gmap ascii T],
      iterated in key order by [map_iter];
    - a call returns a value, throws, runs into undefined behaviour, or
      does not return: [outcome].  The two while loops take a bound on the
      number of passes (fuel); the results below say when it suffices;
    - sizes and indices ([ts.size()], [int n], [int i]) are natural
      numbers: a vector is taken to hold fewer than 2^31 pointers;
    - the writes to [cerr] in [decode] and [print_tr] are left out: they
      change neither the tree nor any result;
    - [release] threads the list of the addresses it has deleted. *)

From Stdlib Require Import ZArith Ascii String.
From stdpp Require Import base list gmap strings sorting.

Local Open Scope Z_scope.

#[local] Arguments Ascii.eqb : simpl never.

(** ** Outcomes of a call *)

(** The error kinds named by the specification.  No function of huffman.cc
    contains a [throw]; the type is here so that "fails with error e" can be
    stated about the code. *)
Inductive error : Type :=
| EmptyInputError
| UnknownSymbolError
| MalformedBitStringError.

(** Kinds of undefined behaviour the code can run into. *)
Inductive undefined : Type :=
| NullDeref          (* a->w, a->left ... through a null pointer *)
| OutOfRange         (* ts[i] or ts.front() outside the vector *)
| PastTheEnd.        (* *it++ with it == bits.end() *)

Inductive outcome (A : Type) : Type :=
| Returns (a : A)               (* the call returns a *)
| Throws (e : error)            (* the call signals e to its caller *)
| Undefined (u : undefined)     (* the call has undefined behaviour *)
| OutOfFuel.                    (* a loop is still running when the fuel ends *)

Arguments Returns {A} a.
Arguments Throws {A} e.
Arguments Undefined {A} u.
Arguments OutOfFuel {A}.

Definition obind {A B} (m : outcome A) (f : A -> outcome B) : outcome B :=
  match m with
  | Returns a => f a
  | Throws e => Throws e
  | Undefined u => Undefined u
  | OutOfFuel => OutOfFuel
  end.

(** Code that allocates nodes threads the number of allocations made so far. *)
Definition M (A : Type) : Type := nat -> outcome (A * nat).

Definition ret {A} (a : A) : M A := fun k => Returns (a, k).

Definition bind {A B} (m : M A) (f : A -> M B) : M B :=
  fun k => obind (m k) (fun r => f (fst r) (snd r)).

Definition lift {A} (o : outcome A) : M A :=
  fun k => obind o (fun a => Returns (a, k)).

Declare Scope cxx_scope.
Delimit Scope cxx_scope with cxx.
Notation "'let*' x ':=' m 'in' f" := (obind m (fun x => f))
  (at level 10, x name, m at level 100, f at level 200, only parsing) : cxx_scope.
Notation "'new*' x ':=' m 'in' f" := (bind m (fun x => f))
  (at level 10, x name, m at level 100, f at level 200, only parsing) : cxx_scope.
Local Open Scope cxx_scope.

(** ** Data *)

Definition addr : Type := Z.

(** [struct Node { int w; char c; Node *left, *right; }] behind a pointer. *)
Inductive Node_ptr : Type :=
| NULL
| At (p : addr) (w : Z) (c : ascii) (left right : Node_ptr).

Abbreviation Nodes := (list Node_ptr) (only parsing).

Definition INT_MAX : Z := 2147483647.

Definition int_wrap (z : Z) : Z := (z + 2147483648) mod 4294967296 - 2147483648.

(** The address a pointer holds; the null pointer is address 0. *)
Definition address (a : Node_ptr) : addr :=
  match a with
  | NULL => 0
  | At p _ _ _ _ => p
  end.

Definition is_null (a : Node_ptr) : bool :=
  match a with
  | NULL => true
  | At _ _ _ _ _ => false
  end.

(** [a->w] and [a->c]. *)
Definition weight (a : Node_ptr) : outcome Z :=
  match a with
  | NULL => Undefined NullDeref
  | At _ w _ _ _ => Returns w
  end.

Definition symbol (a : Node_ptr) : outcome ascii :=
  match a with
  | NULL => Undefined NullDeref
  | At _ _ c _ _ => Returns c
  end.

(** [int isleaf(Node* a) { return (!a->left) && (!a->right); }] *)
Definition isleaf (a : Node_ptr) : outcome bool :=
  match a with
  | NULL => Undefined NullDeref
  | At _ _ _ l r => Returns (is_null l && is_null r)
  end.

(** [bool Node::operator<(const Node& a) { return w < a.w; }]: declared by
    the source, and called nowhere in it. *)
Definition Node_lt (a b : Node_ptr) : outcome bool :=
  let* wa := weight a in
  let* wb := weight b in
  Returns (wa <? wb).

(** [<] on two [Node*]: the built-in comparison of addresses. *)
Definition ptr_lt (a b : Node_ptr) : bool := address a <? address b.

(** [std::min(a, b)] on pointers: [(b < a) ? b : a]. *)
Definition ptr_min (a b : Node_ptr) : Node_ptr := if ptr_lt b a then b else a.

(** ** The vector of nodes *)

(** [ts[i]] *)
Definition at_index (ts : Nodes) (i : nat) : outcome Node_ptr :=
  match ts !! i with
  | Some t => Returns t
  | None => Undefined OutOfRange
  end.

(** [std::swap(ts[i], ts[j])] *)
Definition std_swap (ts : Nodes) (i j : nat) : outcome Nodes :=
  let* x := at_index ts i in
  let* y := at_index ts j in
  Returns (<[j := x]> (<[i := y]> ts)).

(** [void swap(Nodes& ts, int i, int j, int k)] *)
Definition swap (ts : Nodes) (i j k : nat) : outcome Nodes :=
  let* tj := at_index ts j in
  let* tk := at_index ts k in
  if ptr_lt tj tk then std_swap ts i k else std_swap ts i j.

(** The inner loop of [huffman],
    [for (int i = n - 3; i >= 0; --i) if (ts[i] < min(ts[n-1], ts[n-1])) swap(ts, i, n-1, n-2);]
    [scan m n ts] runs it for [i = m-1] down to [0]. *)
Fixpoint scan (m n : nat) (ts : Nodes) : outcome Nodes :=
  match m with
  | O => Returns ts
  | S i =>
      let* ti := at_index ts i in
      let* tl := at_index ts (n - 1) in
      let* ts' := (if ptr_lt ti (ptr_min tl tl)
                   then swap ts i (n - 1) (n - 2)
                   else Returns ts) in
      scan i n ts'
  end.

(** [ts.pop_back()] *)
Definition pop_back (ts : Nodes) : Nodes := take (length ts - 1) ts.

(** ** Allocation and the tree builder *)

Section Allocator.

Variable alloc : nat -> addr.

(** [new Node()]: a fresh address; the fields are value-initialised. *)
Definition new_Node : M addr := fun k => Returns (alloc k, S k).

(** [Node* leaf(char c, int w)] *)
Definition leaf (c : ascii) (w : Z) : M Node_ptr :=
  new* p := new_Node in
  ret (At p w c NULL NULL).

(** [Node* merge(Node* a, Node* b)]; the merged node keeps [c = '\0']. *)
Definition merge (a b : Node_ptr) : M Node_ptr :=
  new* p := new_Node in
  new* wa := lift (weight a) in
  new* wb := lift (weight b) in
  ret (At p (int_wrap (wa + wb)) zero a b).

(** One pass of the body of [while ((n = ts.size()) > 1)]. *)
Definition huffman_body (ts : Nodes) : M Nodes :=
  let n := length ts in
  new* ts1 := lift (scan (n - 2) n ts) in
  new* a := lift (at_index ts1 (n - 1)) in
  new* b := lift (at_index ts1 (n - 2)) in
  new* t := merge a b in
  ret (pop_back (<[(n - 2)%nat := t]> ts1)).

(** [Node* huffman(vector<Node*> ts)]; [fuel] bounds the number of passes
    of the while loop. *)
Fixpoint huffman_loop (fuel : nat) (ts : Nodes) : M Node_ptr :=
  if decide (1 < length ts)%nat then
    match fuel with
    | O => fun _ => OutOfFuel
    | S fuel' =>
        new* ts' := huffman_body ts in
        huffman_loop fuel' ts'
    end
  else
    (* ts.front() *)
    lift (at_index ts 0).

Definition huffman (ts : Nodes) : M Node_ptr := huffman_loop (length ts) ts.

End Allocator.

(** ** Code table, encoder, decoder *)

Abbreviation CodeTab := (gmap ascii (list ascii)) (only parsing).

(** [void codetab(Node* t, string bits, CodeTab& codes)]; the table passed
    by reference is returned. *)
Fixpoint codetab (t : Node_ptr) (bits : list ascii) (codes : gmap ascii (list ascii))
  : outcome (gmap ascii (list ascii)) :=
  match t with
  | NULL => Undefined NullDeref
  | At _ _ c l r =>
      if is_null l && is_null r then Returns (<[c := bits]> codes)
      else
        let* codes' := codetab l (bits ++ ["0"%char]) codes in
        codetab r (bits ++ ["1"%char]) codes'
  end.

(** [CodeTab codetable(Node* t)] *)
Definition codetable (t : Node_ptr) : outcome (gmap ascii (list ascii)) :=
  codetab t [] ∅.

(** [codes[c]] of [std::map]: a missing key is inserted with the empty
    string. *)
Definition map_index (codes : gmap ascii (list ascii)) (c : ascii)
  : list ascii * gmap ascii (list ascii) :=
  match codes !! c with
  | Some s => (s, codes)
  | None => ([], <[c := []]> codes)
  end.

(** The loop of [encode]; [codes] is the function's own copy of the table. *)
Fixpoint encode_loop (codes : gmap ascii (list ascii)) (w bits : list ascii) : list ascii :=
  match w with
  | [] => bits
  | c :: w' =>
      let (s, codes') := map_index codes c in
      encode_loop codes' w' (bits ++ s)
  end.

(** [string encode(CodeTab codes, const string& w)] *)
Definition encode (codes : gmap ascii (list ascii)) (w : list ascii) : outcome (list ascii) :=
  Returns (encode_loop codes w []).

(** The inner loop of [decode],
    [while (!isleaf(t)) t = '0' == *it++ ? t->left : t->right;]
    It returns the leaf reached and the rest of the input. *)
Fixpoint walk (t : Node_ptr) (it : list ascii) : outcome (Node_ptr * list ascii) :=
  match t with
  | NULL => Undefined NullDeref
  | At _ _ _ l r =>
      if is_null l && is_null r then Returns (t, it)
      else
        match it with
        | [] => Undefined PastTheEnd
        | b :: it' => walk (if Ascii.eqb "0" b then l else r) it'
        end
  end.

(** The outer loop of [decode], [for (it = bits.begin(); it != bits.end();)];
    [fuel] bounds the number of passes. *)
Fixpoint decode_loop (fuel : nat) (root : Node_ptr) (it w : list ascii) : outcome (list ascii) :=
  match it with
  | [] => Returns w
  | _ :: _ =>
      match fuel with
      | O => OutOfFuel
      | S fuel' =>
          let* r := walk root it in
          let* c := symbol (fst r) in
          decode_loop fuel' root (snd r) (w ++ [c])
      end
  end.

(** [string decode(Node* root, const string& bits)].  A pass that returns
    to the loop test has either consumed a character or left the iterator
    where it was, so [length bits] passes are enough unless the loop never
    ends ([decode_loop_fuel], [decode_leaf_diverges]). *)
Definition decode (root : Node_ptr) (bits : list ascii) : outcome (list ascii) :=
  decode_loop (length bits) root bits [].

(** ** Histogram and leaves *)

(** [map<char, int> freq(const string& w)]: [++hist[*it]]. *)
Definition freq_step (hist : gmap ascii Z) (c : ascii) : gmap ascii Z :=
  <[c := int_wrap (default 0 (hist !! c) + 1)]> hist.

Definition freq (w : list ascii) : gmap ascii Z := foldl freq_step ∅ w.

(** [char] compared as the signed byte it is on the usual targets. *)
Definition char_val (c : ascii) : Z :=
  let n := Z.of_N (N_of_ascii c) in if n <? 128 then n else n - 256.

Definition key_le (x y : ascii * Z) : Prop := char_val (fst x) <= char_val (fst y).

#[local] Instance key_le_dec x y : Decision (key_le x y) := Z_le_dec _ _.

(** The entries of a [std::map] in iteration order: ascending keys. *)
Definition map_iter (hist : gmap ascii Z) : list (ascii * Z) :=
  merge_sort key_le (map_to_list hist).

Section Leaves.

Variable alloc : nat -> addr.

Fixpoint nodes_loop (its : list (ascii * Z)) (ns : Nodes) : M Nodes :=
  match its with
  | [] => ret ns
  | it :: its' =>
      new* n := leaf alloc (fst it) (snd it) in
      nodes_loop its' (ns ++ [n])
  end.

(** [vector<Node*> nodes(const map<char, int>& hist)] *)
Definition nodes (hist : gmap ascii Z) : M Nodes := nodes_loop (map_iter hist) [].

(** The tree built for a text, as [main] builds it. *)
Definition tree_of (w : list ascii) : M Node_ptr :=
  new* ns := nodes (freq w) in
  huffman alloc ns.

(** The pipeline of [main]: build the tree for [w], encode [w], decode. *)
Definition roundtrip (w : list ascii) : M (list ascii) :=
  new* ns := nodes (freq w) in
  new* tr := huffman alloc ns in
  new* tab := lift (codetable tr) in
  new* cs := lift (encode tab w) in
  lift (decode tr cs).

End Leaves.

Definition str (s : string) : list ascii := list_ascii_of_string s.

(** ** Total readings of the fields, used in statements *)

Definition wt (a : Node_ptr) : Z :=
  match a with
  | NULL => 0
  | At _ w _ _ _ => w
  end.

Definition sym (a : Node_ptr) : ascii :=
  match a with
  | NULL => zero
  | At _ _ c _ _ => c
  end.

(** The node [merge a b] builds at address [p]. *)
Definition merged (p : addr) (a b : Node_ptr) : Node_ptr :=
  At p (int_wrap (wt a + wt b)) zero a b.

(** ** Shape of a tree *)

(** Every node is a leaf (both children null) or has two children. *)
Inductive full : Node_ptr -> Prop :=
| full_leaf p w c : full (At p w c NULL NULL)
| full_node p w c l r : full l -> full r -> full (At p w c l r).

Definition is_leaf (t : Node_ptr) : Prop := exists p w c, t = At p w c NULL NULL.

(** The leaves of a tree, left to right, as (symbol, weight). *)
Fixpoint leaves (t : Node_ptr) : list (ascii * Z) :=
  match t with
  | NULL => []
  | At _ w c l r =>
      if is_null l && is_null r then [(c, w)] else leaves l ++ leaves r
  end.

(** All the nodes of a tree, the root first. *)
Fixpoint subtrees (t : Node_ptr) : list Node_ptr :=
  match t with
  | NULL => []
  | At _ _ _ l r => t :: subtrees l ++ subtrees r
  end.

Definition left_of (t : Node_ptr) : Node_ptr :=
  match t with
  | NULL => NULL
  | At _ _ _ l _ => l
  end.

Definition right_of (t : Node_ptr) : Node_ptr :=
  match t with
  | NULL => NULL
  | At _ _ _ _ r => r
  end.

(** An internal node is one that is not a leaf for [isleaf]. *)
Definition internal (t : Node_ptr) : Prop :=
  t <> NULL /\ (left_of t <> NULL \/ right_of t <> NULL).

(** Weighted path length: the sum over the leaves of weight times depth. *)
Fixpoint cost_at (d : Z) (t : Node_ptr) : Z :=
  match t with
  | NULL => 0
  | At _ w _ l r =>
      if is_null l && is_null r then w * d
      else cost_at (d + 1) l + cost_at (d + 1) r
  end.

Definition cost (t : Node_ptr) : Z := cost_at 0 t.

(** Sum of a list of weights. *)
Definition total (ws : list Z) : Z := foldr Z.add 0 ws.

(** Every internal node has two children. *)
Definition two_children (t : Node_ptr) : Prop :=
  forall s, s ∈ subtrees t -> internal s -> left_of s <> NULL /\ right_of s <> NULL.

(** Every internal node weighs what its children weigh together. *)
Definition weights_add (t : Node_ptr) : Prop :=
  forall s, s ∈ subtrees t -> internal s -> wt s = wt (left_of s) + wt (right_of s).

(** The same, up to the wrap-around of [int]. *)
Definition weights_add_wrapped (t : Node_ptr) : Prop :=
  forall s, s ∈ subtrees t -> internal s ->
    wt s = int_wrap (wt (left_of s) + wt (right_of s)).

(** Inductive forms, used in the proofs. *)
Inductive weighted : Node_ptr -> Prop :=
| weighted_leaf p w c : 0 <= w -> weighted (At p w c NULL NULL)
| weighted_node p w c l r :
    weighted l -> weighted r -> w = wt l + wt r -> weighted (At p w c l r).

Inductive wrapped : Node_ptr -> Prop :=
| wrapped_leaf p w c : wrapped (At p w c NULL NULL)
| wrapped_node p w c l r :
    wrapped l -> wrapped r -> w = int_wrap (wt l + wt r) -> wrapped (At p w c l r).

(** Invariant of the while loop of [huffman], for the shape: the vector holds
    full trees whose leaves are, together, the leaves it started with. *)
Definition forest (L : list (ascii * Z)) (ts : list Node_ptr) : Prop :=
  Forall full ts /\ Forall wrapped ts /\ ts ≫= leaves ≡ₚ L.

(** Invariant of the while loop of [huffman], for the weights: the trees' weights add up, without
    wrap-around, and their sum stays the sum of the leaves' weights. *)
Definition in_range (ts : list Node_ptr) : Prop :=
  Forall weighted ts /\ total (wt <$> ts) <= INT_MAX.

(** A call that signals no error to its caller. *)
Definition quiet {A} (o : outcome A) : Prop := forall e, o <> Throws e.

(** ** Codes *)

(** The path from the root to every leaf, left to right: "0" for a step
    to the left child, "1" for a step to the right child. *)
Fixpoint codes_of (t : Node_ptr) : list (ascii * list ascii) :=
  match t with
  | NULL => []
  | At _ _ c l r =>
      if is_null l && is_null r then [(c, [])]
      else (prod_map id (cons "0"%char) <$> codes_of l)
             ++ (prod_map id (cons "1"%char) <$> codes_of r)
  end.

(** [codes[c] = bits ++ path], for one leaf. *)
Definition record (bits : list ascii) (codes : gmap ascii (list ascii))
  (cp : ascii * list ascii) : gmap ascii (list ascii) :=
  <[cp.1 := bits ++ cp.2]> codes.

(** What [encode] appends for one symbol: its entry, or nothing when the
    table has none. *)
Definition code_in (codes : gmap ascii (list ascii)) (c : ascii) : list ascii :=
  default [] (codes !! c).

(** How [decode] reads a character: "0" is left, anything else is right. *)
Definition bit_of (b : ascii) : ascii :=
  if Ascii.eqb "0" b then "0"%char else "1"%char.

(** ** Optimality, and the inputs of the concrete runs *)

(** An allocator that hands out ascending addresses, 32 bytes apart. *)
Definition bump : nat -> addr := fun k => 4096 + 32 * Z.of_nat k.

(** A tree is optimal when no full tree over the same multiset of leaf
    weights has a smaller weighted path length. *)
Definition optimal (t : Node_ptr) : Prop :=
  forall t', full t' -> (leaves t').*2 ≡ₚ (leaves t).*2 -> cost t <= cost t'.

(** The leaves [nodes] builds for "aaabbc" under [bump]. *)
Definition leaf_a : Node_ptr := At 4096 3 "a" NULL NULL.
Definition leaf_b : Node_ptr := At 4128 2 "b" NULL NULL.
Definition leaf_c : Node_ptr := At 4160 1 "c" NULL NULL.

(** The text of [main]. *)
Definition hello : list ascii := str "hello, wired world".

(** The tree [huffman] builds for "ab" under [bump], and its table. *)
Definition tree_ab : Node_ptr :=
  At 4160 2 zero (At 4128 1 "b" NULL NULL) (At 4096 1 "a" NULL NULL).

Definition table_ab : gmap ascii (list ascii) :=
  {[ "a"%char := ["1"%char]; "b"%char := ["0"%char] ]}.

(** The tree [huffman] builds for "aaabbc" under [bump]. *)
Definition tree_aaabbc : Node_ptr :=
  At 4224 6 zero (At 4192 5 zero leaf_a leaf_b) leaf_c.

(** ** The rest of the translation unit, and the vocabulary of its results *)

(** [void release(Node* t)]: [if (t) { release(t->left); release(t->right);
    delete t; }].  The state threaded is the list of the addresses passed
    to [delete] so far, the oldest first. *)
Fixpoint release (t : Node_ptr) (freed : list addr) : list addr :=
  match t with
  | NULL => freed
  | At p _ _ l r => release r (release l freed) ++ [p]
  end.

(** The number of occurrences of a symbol in a text. *)
Definition occ (c : ascii) (w : list ascii) : Z :=
  Z.of_nat (length (filter (fun x => x = c) w)).

(** Keys in strictly ascending order, as a [std::map] holds them. *)
Definition key_lt (x y : ascii * Z) : Prop := char_val (fst x) < char_val (fst y).

(** The addresses of all the nodes of a tree. *)
Definition addresses (t : Node_ptr) : list addr := address <$> subtrees t.

(** The least address held in the last two cells of a vector. *)
Definition last_two_min (ts : list Node_ptr) : Z :=
  Z.min (address (default NULL (ts !! (length ts - 1)%nat)))
        (address (default NULL (ts !! (length ts - 2)%nat))).

(** Two trees that differ at most in the weights of their nodes. *)
Inductive same_shape : Node_ptr -> Node_ptr -> Prop :=
| same_shape_null : same_shape NULL NULL
| same_shape_node p w w' c l l' r r' :
    same_shape l l' -> same_shape r r' ->
    same_shape (At p w c l r) (At p w' c l' r').

(** Two outcomes that are the same up to a relation on the values returned. *)
Definition outcome_rel {A} (R : A -> A -> Prop) (o o' : outcome A) : Prop :=
  match o, o' with
  | Returns a, Returns a' => R a a'
  | Throws e, Throws e' => e = e'
  | Undefined u, Undefined u' => u = u'
  | OutOfFuel, OutOfFuel => True
  | _, _ => False
  end.

(** The sum over a histogram of count times [g] of the symbol. *)
Definition weighted_sum (g : ascii -> Z) (L : list (ascii * Z)) : Z :=
  total ((fun cw => cw.2 * g cw.1) <$> L).

(** A relation on the values of calls that allocate: related values after
    the same number of allocations. *)
Definition same_count {A} (R : A -> A -> Prop) (r r' : A * nat) : Prop :=
  R r.1 r'.1 /\ r.2 = r'.2.

(** * The tree builder *)

Section Builder.

Variable alloc : nat -> addr.

Lemma at_index_lt (ts : Nodes) i :
  (i < length ts)%nat -> exists t, ts !! i = Some t /\ at_index ts i = Returns t.
Proof.
  intros [t Ht]%lookup_lt_is_Some_2. exists t. unfold at_index. by rewrite Ht.
Qed.

Lemma std_swap_perm (ts : Nodes) i j :
  (i < length ts)%nat -> (j < length ts)%nat ->
  exists ts', std_swap ts i j = Returns ts' /\ ts' ≡ₚ ts.
Proof.
  intros Hi Hj. unfold std_swap.
  destruct (at_index_lt ts i Hi) as (x & Hx & ->).
  destruct (at_index_lt ts j Hj) as (y & Hy & ->). simpl.
  eexists; split; [reflexivity|]. by apply Permutation_insert_swap.
Qed.

Lemma swap_perm (ts : Nodes) i j k :
  (i < length ts)%nat -> (j < length ts)%nat -> (k < length ts)%nat ->
  exists ts', swap ts i j k = Returns ts' /\ ts' ≡ₚ ts.
Proof.
  intros Hi Hj Hk. unfold swap.
  destruct (at_index_lt ts j Hj) as (tj & _ & ->).
  destruct (at_index_lt ts k Hk) as (tk & _ & ->). simpl.
  destruct (ptr_lt tj tk); by apply std_swap_perm.
Qed.

(** The inner loop only reorders the vector. *)
Lemma scan_perm m : forall (ts : Nodes),
  (2 <= length ts)%nat -> (m <= length ts - 2)%nat ->
  exists ts', scan m (length ts) ts = Returns ts' /\ ts' ≡ₚ ts.
Proof.
  induction m as [|i IH]; intros ts Hn Hm; simpl.
  - by exists ts.
  - destruct (at_index_lt ts i) as (ti & _ & ->); [lia|].
    destruct (at_index_lt ts (length ts - 1)) as (tl & _ & ->); [lia|]. simpl.
    assert (exists ts1, (if ptr_lt ti (ptr_min tl tl)
                         then swap ts i (length ts - 1) (length ts - 2)
                         else Returns ts) = Returns ts1 /\ ts1 ≡ₚ ts)
      as (ts1 & -> & Hp).
    { destruct (ptr_lt ti (ptr_min tl tl)); [apply swap_perm; lia|by exists ts]. }
    simpl. pose proof (Permutation_length Hp) as Hl.
    destruct (IH ts1) as (ts' & Hs & Hp'); [lia|lia|].
    rewrite Hl in Hs. exists ts'. split; [done|]. by rewrite Hp'.
Qed.

Lemma split_last_two {A} (l : list A) :
  (2 <= length l)%nat -> exists rest y x, l = rest ++ [y; x].
Proof.
  intros Hl. destruct l as [|a l] using rev_ind; [simpl in Hl; lia|].
  clear IHl. destruct l as [|b l] using rev_ind.
  - simpl in Hl; lia.
  - exists l, b, a. by rewrite <-app_assoc.
Qed.

Lemma merge_spec (a b : Node_ptr) k :
  a <> NULL -> b <> NULL ->
  merge alloc a b k = Returns (merged (alloc k) a b, S k).
Proof. destruct a, b; done. Qed.

(** One pass of the while loop: the vector is reordered, its last two
    elements are merged into one node, and the vector is one shorter. *)
Lemma huffman_body_spec (ts : Nodes) k :
  (2 <= length ts)%nat -> Forall (fun t => t <> NULL) ts ->
  exists rest y x,
    ts ≡ₚ rest ++ [y; x] /\
    huffman_body alloc ts k = Returns (rest ++ [merged (alloc k) x y], S k).
Proof.
  intros Hn Hnn. unfold huffman_body, bind, lift.
  destruct (scan_perm (length ts - 2) ts) as (ts1 & -> & Hp); [done|lia|].
  simpl. pose proof (Permutation_length Hp) as Hl.
  destruct (split_last_two ts1) as (rest & y & x & ->); [lia|].
  exists rest, y, x. split; [done|].
  rewrite length_app in Hl. simpl in Hl. rewrite <-Hl.
  assert (Hx : x <> NULL /\ y <> NULL).
  { rewrite <-Hp in Hnn. apply Forall_app in Hnn as [_ Hnn].
    inversion Hnn as [|? ? Hy Hnn']; subst. inversion Hnn'; subst. done. }
  destruct Hx as [Hx Hy].
  unfold at_index.
  replace (length rest + 2 - 1)%nat with (length rest + 1)%nat by lia.
  replace (length rest + 2 - 2)%nat with (length rest + 0)%nat by lia.
  rewrite !lookup_app_r by lia.
  replace (length rest + 1 - length rest)%nat with 1%nat by lia.
  replace (length rest + 0 - length rest)%nat with 0%nat by lia.
  simpl. rewrite merge_spec by done. simpl. unfold ret. do 2 f_equal.
  unfold pop_back. rewrite length_insert, length_app. simpl.
  rewrite insert_app_r. simpl.
  replace (length rest + 2 - 1)%nat with (length rest + 1)%nat by lia.
  rewrite take_app_add'; done.
Qed.

(** A property of the vector that survives reordering and merging the
    last two elements holds of the tree returned, and the loop makes
    [length ts - 1] passes, one allocation each. *)
Section LoopInvariant.

Variable I : list Node_ptr -> Prop.
Hypothesis I_perm : forall ts ts', ts ≡ₚ ts' -> I ts -> I ts'.
Hypothesis I_merge : forall p x y rest, I (rest ++ [y; x]) -> I (rest ++ [merged p x y]).
Hypothesis I_nonnull : forall ts, I ts -> Forall (fun t => t <> NULL) ts.

Lemma huffman_loop_inv fuel : forall (ts : Nodes) k,
  ts <> [] -> (length ts <= S fuel)%nat -> I ts ->
  exists t, huffman_loop alloc fuel ts k = Returns (t, (k + (length ts - 1))%nat) /\ I [t].
Proof.
  induction fuel as [|fuel IH]; intros ts k Hne Hlen HI; simpl;
    destruct (decide (1 < length ts)%nat) as [Hgt|Hle]; try lia.
  - destruct ts as [|t [|? ?]]; simpl in *; try done; try lia.
    exists t. unfold lift; simpl. split; [|done]. do 2 f_equal. lia.
  - destruct (huffman_body_spec ts k) as (rest & y & x & Hp & Hb); [lia|auto|].
    unfold bind. rewrite Hb. simpl.
    pose proof (Permutation_length Hp) as Hl. rewrite length_app in Hl. simpl in Hl.
    destruct (IH (rest ++ [merged (alloc k) x y]) (S k)) as (t & Ht & HIt).
    + by destruct rest.
    + rewrite length_app. simpl. lia.
    + apply I_merge. by apply (I_perm ts).
    + exists t. split; [|done]. rewrite Ht. do 2 f_equal.
      rewrite length_app. simpl. lia.
  - destruct ts as [|t [|? ?]]; simpl in *; try done; try lia.
    exists t. unfold lift; simpl. split; [|done]. do 2 f_equal. lia.
Qed.

End LoopInvariant.

End Builder.

(** ** Facts about trees *)

Lemma full_nonnull t : full t -> t <> NULL.
Proof. by destruct 1. Qed.

Lemma is_leaf_full t : is_leaf t -> full t.
Proof. intros (p & w & c & ->). constructor. Qed.

Lemma weighted_full t : weighted t -> full t.
Proof. induction 1; by constructor. Qed.

Lemma wrapped_full t : wrapped t -> full t.
Proof. induction 1; by constructor. Qed.

Lemma weighted_nonneg t : weighted t -> 0 <= wt t.
Proof. induction 1; simpl in *; lia. Qed.

Lemma leaves_merged p x y : x <> NULL -> leaves (merged p x y) = leaves x ++ leaves y.
Proof. by destruct x. Qed.

Lemma full_leaves_nonempty t : full t -> leaves t <> [].
Proof.
  induction 1 as [|p w c l r Hl IHl Hr IHr]; simpl; [done|].
  destruct l; [by apply full_nonnull in Hl|]. simpl.
  intros [? _]%app_eq_nil. by apply IHl.
Qed.

Lemma full_two_children t : full t -> two_children t.
Proof.
  induction 1 as [|p w c l r Hl IHl Hr IHr]; intros s Hs Hi.
  - simpl in Hs. apply list_elem_of_singleton in Hs as ->.
    destruct Hi as [_ [?|?]]; done.
  - simpl in Hs. apply elem_of_cons in Hs as [->|Hs].
    + simpl. split; by apply full_nonnull.
    + apply elem_of_app in Hs as [Hs|Hs]; auto.
Qed.

Lemma weighted_weights_add t : weighted t -> weights_add t.
Proof.
  induction 1 as [|p w c l r Hl IHl Hr IHr Hw]; intros s Hs Hi.
  - simpl in Hs. apply list_elem_of_singleton in Hs as ->.
    destruct Hi as [_ [?|?]]; done.
  - simpl in Hs. apply elem_of_cons in Hs as [->|Hs]; [done|].
    apply elem_of_app in Hs as [Hs|Hs]; auto.
Qed.

Lemma wrapped_weights_add t : wrapped t -> weights_add_wrapped t.
Proof.
  induction 1 as [|p w c l r Hl IHl Hr IHr Hw]; intros s Hs Hi.
  - simpl in Hs. apply list_elem_of_singleton in Hs as ->.
    destruct Hi as [_ [?|?]]; done.
  - simpl in Hs. apply elem_of_cons in Hs as [->|Hs]; [done|].
    apply elem_of_app in Hs as [Hs|Hs]; auto.
Qed.

Lemma total_app ws1 ws2 : total (ws1 ++ ws2) = total ws1 + total ws2.
Proof. induction ws1 as [|w ws1 IH]; simpl; [done|]. unfold total in *. simpl. lia. Qed.

Lemma total_perm ws1 ws2 : ws1 ≡ₚ ws2 -> total ws1 = total ws2.
Proof. induction 1; unfold total in *; simpl; lia. Qed.

Lemma total_nonneg ws : Forall (fun w => 0 <= w) ws -> 0 <= total ws.
Proof. induction 1; unfold total in *; simpl; lia. Qed.

Lemma int_wrap_id z : - 2147483648 <= z <= INT_MAX -> int_wrap z = z.
Proof.
  unfold int_wrap, INT_MAX. intros Hz.
  rewrite Z.mod_small by lia. lia.
Qed.

(** ** The loop invariants of [huffman] *)

Lemma forest_perm L ts ts' : ts ≡ₚ ts' -> forest L ts -> forest L ts'.
Proof.
  intros Hp (Hf & Hw & Hl). split; [by rewrite <-Hp|].
  split; [by rewrite <-Hp|]. by rewrite <-Hp.
Qed.

Lemma forest_merge L p x y rest :
  forest L (rest ++ [y; x]) -> forest L (rest ++ [merged p x y]).
Proof.
  intros (Hf & Hw & Hl).
  apply Forall_app in Hf as [Hf1 Hf2]. apply Forall_app in Hw as [Hw1 Hw2].
  inversion Hf2 as [|? ? Hy Hf3]; subst. inversion Hf3 as [|? ? Hx _]; subst.
  inversion Hw2 as [|? ? Hy' Hw3]; subst. inversion Hw3 as [|? ? Hx' _]; subst.
  split; [|split].
  - apply Forall_app. split; [done|]. repeat constructor; done.
  - apply Forall_app. split; [done|]. repeat constructor; done.
  - rewrite <-Hl. rewrite !bind_app. apply Permutation_app_head.
    rewrite bind_singleton, bind_cons, bind_singleton.
    rewrite leaves_merged by by apply full_nonnull.
    apply Permutation_app_comm.
Qed.

Lemma forest_nonnull L ts : forest L ts -> Forall (fun t => t <> NULL) ts.
Proof. intros (Hf & _). eapply Forall_impl; [done|]. apply full_nonnull. Qed.

Lemma in_range_perm ts ts' : ts ≡ₚ ts' -> in_range ts -> in_range ts'.
Proof.
  intros Hp (Hw & Ht). split; [by rewrite <-Hp|].
  rewrite <-(total_perm (wt <$> ts)); [done|]. by rewrite Hp.
Qed.

Lemma in_range_merge p x y rest :
  in_range (rest ++ [y; x]) -> in_range (rest ++ [merged p x y]).
Proof.
  intros (Hw & Ht).
  apply Forall_app in Hw as [Hw1 Hw2].
  inversion Hw2 as [|? ? Hy Hw3]; subst. inversion Hw3 as [|? ? Hx _]; subst.
  rewrite fmap_app, total_app in Ht. unfold total in Ht at 2. simpl in Ht.
  assert (0 <= total (wt <$> rest)).
  { apply total_nonneg, Forall_fmap. eapply Forall_impl; [done|].
    apply weighted_nonneg. }
  pose proof (weighted_nonneg _ Hx). pose proof (weighted_nonneg _ Hy).
  assert (Hid : int_wrap (wt x + wt y) = wt x + wt y).
  { apply int_wrap_id. unfold INT_MAX in *. lia. }
  split.
  - apply Forall_app. split; [done|]. repeat constructor; try done.
  - rewrite fmap_app, total_app. unfold total at 2. simpl. lia.
Qed.

Lemma in_range_nonnull ts : in_range ts -> Forall (fun t => t <> NULL) ts.
Proof.
  intros (Hw & _). eapply Forall_impl; [done|].
  intros t Ht. by apply full_nonnull, weighted_full.
Qed.

Lemma nonnull_merge p x y (rest : list Node_ptr) :
  Forall (fun t => t <> NULL) (rest ++ [y; x]) ->
  Forall (fun t => t <> NULL) (rest ++ [merged p x y]).
Proof.
  intros [H1 _]%Forall_app. apply Forall_app. split; [done|].
  by repeat constructor.
Qed.

Lemma nonnull_perm (ts ts' : list Node_ptr) :
  ts ≡ₚ ts' -> Forall (fun t => t <> NULL) ts -> Forall (fun t => t <> NULL) ts'.
Proof. by intros ->. Qed.

(** * The code table *)

(** The recursion of [codetab], with [isleaf] as the source calls it. *)
Lemma codetab_eq t bits codes :
  codetab t bits codes =
    let* lf := isleaf t in
    if lf then
      let* c := symbol t in Returns (<[c := bits]> codes)
    else
      let* codes' := codetab (left_of t) (bits ++ ["0"%char]) codes in
      codetab (right_of t) (bits ++ ["1"%char]) codes'.
Proof. destruct t as [|p w c l r]; [done|]. simpl. by destruct (is_null l && is_null r). Qed.

Lemma foldl_ext {A B} (f g : A -> B -> A) (l : list B) (a : A) :
  (forall x y, f x y = g x y) -> foldl f a l = foldl g a l.
Proof.
  intros Hfg. revert a. induction l as [|y l IH]; intros a; simpl; [done|].
  by rewrite Hfg, IH.
Qed.

Lemma codes_of_symbols t : (codes_of t).*1 = (leaves t).*1.
Proof.
  induction t as [|p w c l IHl r IHr]; simpl; [done|].
  destruct (is_null l && is_null r); [done|].
  rewrite !fmap_app, <-!list_fmap_compose, <-IHl, <-IHr.
  f_equal; by apply list_fmap_ext; intros ? [? ?].
Qed.

Lemma foldl_record_cons bits b xs codes :
  foldl (record bits) codes (prod_map id (cons b) <$> xs)
  = foldl (record (bits ++ [b])) codes xs.
Proof.
  rewrite foldl_fmap. apply foldl_ext.
  intros m [c q]. unfold record. simpl. by rewrite <-app_assoc.
Qed.

(** [codetab] stores, leaf by leaf, the path to the leaf after [bits]. *)
Lemma codetab_spec t : full t -> forall bits codes,
  codetab t bits codes = Returns (foldl (record bits) codes (codes_of t)).
Proof.
  induction 1 as [p w c|p w c l r Hl IHl Hr IHr]; intros bits codes; simpl.
  - unfold record. simpl. by rewrite app_nil_r.
  - destruct l as [|pl wl cl ll lr]; [by apply full_nonnull in Hl|].
    cbn [is_null andb].
    rewrite IHl. cbn [obind]. rewrite IHr. f_equal.
    by rewrite foldl_app, !foldl_record_cons.
Qed.

Lemma lookup_record_notin bits xs : forall codes c,
  c ∉ xs.*1 -> foldl (record bits) codes xs !! c = codes !! c.
Proof.
  induction xs as [|[c' q] xs IH]; intros codes c Hc; simpl; [done|].
  rewrite fmap_cons, not_elem_of_cons in Hc. destruct Hc as [Hne Hc].
  rewrite IH by done. unfold record. simpl. by rewrite lookup_insert_ne.
Qed.

(** With one leaf per symbol, the table holds each leaf's path. *)
Lemma lookup_record_in bits xs : forall codes c q,
  NoDup xs.*1 -> (c, q) ∈ xs ->
  foldl (record bits) codes xs !! c = Some (bits ++ q).
Proof.
  induction xs as [|[c' q'] xs IH]; intros codes c q Hnd Hin; simpl.
  - by apply elem_of_nil in Hin.
  - rewrite fmap_cons in Hnd. apply NoDup_cons in Hnd as [Hc' Hnd].
    apply elem_of_cons in Hin as [Heq|Hin].
    + inversion Heq; subst. rewrite lookup_record_notin by done.
      unfold record. simpl. by rewrite lookup_insert_eq.
    + by apply IH.
Qed.

(** In any case, an entry of the table is the path to a leaf carrying
    that symbol, or was in the table before. *)
Lemma lookup_record_inv bits xs : forall codes c s,
  foldl (record bits) codes xs !! c = Some s ->
  (exists q, (c, q) ∈ xs /\ s = bits ++ q) \/ codes !! c = Some s.
Proof.
  induction xs as [|[c' q'] xs IH]; intros codes c s Hs; simpl in Hs; [by right|].
  apply IH in Hs as [(q & Hq & ->)|Hs].
  - left. exists q. split; [by right|done].
  - unfold record in Hs. simpl in Hs.
    destruct (decide (c' = c)) as [->|Hne].
    + rewrite lookup_insert_eq in Hs. inversion Hs; subst.
      left. exists q'. split; [by left|done].
    + rewrite lookup_insert_ne in Hs by done. by right.
Qed.

(** Two root-to-leaf paths of a full tree of which one is a prefix of the
    other are the same path to the same leaf. *)
Lemma codes_of_prefix t : full t -> forall a b p q,
  (a, p) ∈ codes_of t -> (b, q) ∈ codes_of t -> p `prefix_of` q -> a = b /\ p = q.
Proof.
  induction 1 as [p0 w c|p0 w c l r Hl IHl Hr IHr]; intros a b p q Ha Hb Hpq.
  - simpl in *. apply list_elem_of_singleton in Ha, Hb. by simplify_eq.
  - simpl in Ha, Hb.
    destruct l as [|pl wl cl ll lr]; [by apply full_nonnull in Hl|].
    cbn [is_null andb] in Ha, Hb.
    apply elem_of_app in Ha as [Ha|Ha]; apply elem_of_app in Hb as [Hb|Hb];
      apply list_elem_of_fmap in Ha as ([a' p'] & Ea & Ha);
      apply list_elem_of_fmap in Hb as ([b' q'] & Eb & Hb);
      unfold prod_map in Ea, Eb; simpl in Ea, Eb; simplify_eq.
    + apply prefix_cons_inv_2 in Hpq.
      destruct (IHl _ _ _ _ Ha Hb Hpq) as [-> ->]. done.
    + by apply prefix_cons_inv_1 in Hpq.
    + by apply prefix_cons_inv_1 in Hpq.
    + apply prefix_cons_inv_2 in Hpq.
      destruct (IHr _ _ _ _ Ha Hb Hpq) as [-> ->]. done.
Qed.

(** * The encoder *)

Lemma bind_ext_in {A B} (f g : A -> list B) (l : list A) :
  (forall x, x ∈ l -> f x = g x) -> l ≫= f = l ≫= g.
Proof.
  induction l as [|x l IH]; intros H; [done|].
  rewrite !bind_cons, H, IH; [done| |by left].
  intros y Hy. apply H. by right.
Qed.

Lemma encode_loop_spec w : forall codes bits,
  encode_loop codes w bits = bits ++ (w ≫= code_in codes).
Proof.
  induction w as [|c w IH]; intros codes bits.
  - simpl. by rewrite app_nil_r.
  - cbn [encode_loop]. unfold map_index. rewrite bind_cons. unfold code_in at 1.
    destruct (codes !! c) as [s|] eqn:Hc; cbn [default].
    + by rewrite IH, <-app_assoc.
    + rewrite IH. rewrite app_nil_r. cbn [app]. f_equal. apply bind_ext_in.
      intros c' _. unfold code_in.
      destruct (decide (c = c')) as [->|Hne].
      * by rewrite lookup_insert_eq, Hc.
      * by rewrite lookup_insert_ne.
Qed.

(** * The decoder *)

(** The loop of [walk], with [isleaf] as the source calls it. *)
Lemma walk_eq t it :
  walk t it =
    let* lf := isleaf t in
    if lf then Returns (t, it)
    else
      match it with
      | [] => Undefined PastTheEnd
      | b :: it' => walk (if Ascii.eqb "0" b then left_of t else right_of t) it'
      end.
Proof. destruct t as [|p w c l r]; [done|]. simpl. by destruct (is_null l && is_null r). Qed.

Lemma walk_code t : full t -> forall c p rest,
  (c, p) ∈ codes_of t ->
  exists lf, walk t (p ++ rest) = Returns (lf, rest) /\ symbol lf = Returns c.
Proof.
  induction 1 as [p0 w c0|p0 w c0 l r Hl IHl Hr IHr]; intros c p rest Hin.
  - simpl in Hin. apply list_elem_of_singleton in Hin. simplify_eq.
    simpl. eauto.
  - simpl in Hin. simpl.
    destruct l as [|pl wl cl ll lr]; [by apply full_nonnull in Hl|].
    cbn [is_null andb] in *.
    apply elem_of_app in Hin as [Hin|Hin];
      apply list_elem_of_fmap in Hin as ([c' p'] & E & Hin);
      unfold prod_map in E; simpl in E; simplify_eq; simpl.
    + by apply IHl.
    + by apply IHr.
Qed.

(** A walk that starts at an internal node consumes input. *)
Lemma walk_consumes t : forall it lf it',
  walk t it = Returns (lf, it') ->
  (length it' <= length it)%nat /\
  (internal t -> (length it' < length it)%nat).
Proof.
  induction t as [|p w c l IHl r IHr]; intros it lf it' Hw; simpl in Hw; [done|].
  destruct (is_null l && is_null r) eqn:Hlf.
  - simplify_eq. split; [done|]. intros [_ [?|?]]; simpl in *.
    + by destruct l.
    + destruct l; [by destruct r|done].
  - destruct it as [|b it]; [done|]. simpl.
    destruct (Ascii.eqb "0" b).
    + apply IHl in Hw as [? _]. split; intros; lia.
    + apply IHr in Hw as [? _]. split; intros; lia.
Qed.

Lemma walk_no_fuel t : forall it, walk t it <> OutOfFuel.
Proof.
  induction t as [|p w c l IHl r IHr]; intros it; simpl; [done|].
  destruct (is_null l && is_null r); [done|].
  destruct it as [|b it]; [done|]. destruct (Ascii.eqb "0" b); auto.
Qed.

(** More fuel does not change an outcome other than running out of it. *)
Lemma decode_loop_stable fuel : forall root it w fuel',
  decode_loop fuel root it w <> OutOfFuel -> (fuel <= fuel')%nat ->
  decode_loop fuel' root it w = decode_loop fuel root it w.
Proof.
  induction fuel as [|fuel IH]; intros root it w fuel' Hd Hle;
    destruct it as [|b it]; simpl in *; try done; try (by destruct fuel').
  destruct fuel' as [|fuel']; [lia|]. simpl.
  destruct (walk root (b :: it)) as [[lf it']| | |]; simpl in *; try done.
  destruct (symbol lf); simpl in *; try done.
  apply IH; [done|lia].
Qed.

Lemma decode_loop_mono fuel root it w x fuel' :
  decode_loop fuel root it w = Returns x -> (fuel <= fuel')%nat ->
  decode_loop fuel' root it w = Returns x.
Proof.
  intros Hd Hle. rewrite <-Hd. apply decode_loop_stable; [by rewrite Hd|done].
Qed.

(** With an internal root, [length it] passes always suffice. *)
Lemma decode_loop_fuel root : internal root -> forall fuel it w,
  (length it <= fuel)%nat -> decode_loop fuel root it w <> OutOfFuel.
Proof.
  intros Hroot. induction fuel as [|fuel IH]; intros it w Hlen;
    destruct it as [|b it]; simpl in *; try done; try lia.
  pose proof (walk_no_fuel root (b :: it)) as Hnf.
  destruct (walk root (b :: it)) as [[lf it']| | |] eqn:Hw; simpl; try done.
  destruct lf; simpl; try done.
  apply IH. apply walk_consumes in Hw as [_ Hw]. specialize (Hw Hroot).
  simpl in Hw. lia.
Qed.

(** With a leaf as root and input left, no amount of fuel is enough: the
    loop of the source appends the leaf's symbol for ever. *)
Lemma decode_leaf_diverges fuel : forall p wt0 c it w,
  it <> [] -> decode_loop fuel (At p wt0 c NULL NULL) it w = OutOfFuel.
Proof.
  induction fuel as [|fuel IH]; intros p wt0 c it w Hit;
    destruct it as [|b it]; simpl; try done.
  by apply IH.
Qed.

(** [decode] runs out of fuel only when the loop of the source never
    ends: then no fuel is enough. *)
Lemma decode_diverges root bits :
  decode root bits = OutOfFuel ->
  forall fuel, decode_loop fuel root bits [] = OutOfFuel.
Proof.
  unfold decode. intros Hd fuel.
  destruct root as [|p w c l r].
  - destruct bits; simpl in Hd; done.
  - destruct l as [|pl wl cl ll lr]; [destruct r as [|pr wr cr rl rr]|].
    + apply decode_leaf_diverges. by destruct bits.
    + exfalso. revert Hd. apply decode_loop_fuel; [|done].
      split; [done|]. by right.
    + exfalso. revert Hd. apply decode_loop_fuel; [|done].
      split; [done|]. by left.
Qed.

(** Decoding a concatenation of codes of an internal root gives back the
    symbols. *)
Lemma decode_loop_codes root (codef : ascii -> list ascii) :
  full root -> internal root -> forall s fuel w,
  (length s <= fuel)%nat ->
  (forall c, c ∈ s -> (c, codef c) ∈ codes_of root) ->
  decode_loop fuel root (s ≫= codef) w = Returns (w ++ s).
Proof.
  intros Hfull Hint. induction s as [|c s IH]; intros fuel w Hlen Hcodes.
  - destruct fuel; simpl; by rewrite app_nil_r.
  - rewrite bind_cons.
    assert (Hc : (c, codef c) ∈ codes_of root) by (apply Hcodes; by left).
    destruct (walk_code root Hfull c (codef c) (s ≫= codef) Hc) as (lf & Hw & Hs).
    destruct (codef c ++ (s ≫= codef)) as [|b it] eqn:Hbits.
    { apply walk_consumes in Hw as [_ Hw]. specialize (Hw Hint). simpl in Hw. lia. }
    destruct fuel as [|fuel]; [simpl in Hlen; lia|]. simpl in Hlen.
    cbn [decode_loop]. rewrite Hw. cbn [obind fst snd]. rewrite Hs. cbn [obind].
    rewrite IH; [by rewrite <-app_assoc|lia|].
    intros c' Hc'. apply Hcodes. by right.
Qed.

(** * Histogram and leaves *)

Lemma freq_fold_keys s : forall hist c,
  is_Some (foldl freq_step hist s !! c) <-> c ∈ s \/ is_Some (hist !! c).
Proof.
  induction s as [|x s IH]; intros hist c; simpl.
  - split; [by right|]. intros [H|H]; [by apply elem_of_nil in H|done].
  - rewrite IH. clear IH.
    unfold freq_step. rewrite lookup_insert_is_Some, elem_of_cons.
    destruct (decide (x = c)) as [->|Hne]; [tauto|].
    assert (c <> x) by congruence. tauto.
Qed.

(** The histogram has exactly the symbols of the text as keys. *)
Lemma freq_keys s c : is_Some (freq s !! c) <-> c ∈ s.
Proof.
  unfold freq. rewrite freq_fold_keys, lookup_empty.
  split; [intros [H|H]; [done|by destruct H]|by left].
Qed.

Lemma map_iter_perm hist : map_iter hist ≡ₚ map_to_list hist.
Proof. apply merge_sort_Permutation. Qed.

Lemma map_iter_NoDup hist : NoDup (map_iter hist).*1.
Proof. rewrite map_iter_perm. apply NoDup_fst_map_to_list. Qed.

Lemma elem_of_map_iter hist c : c ∈ (map_iter hist).*1 <-> is_Some (hist !! c).
Proof.
  rewrite map_iter_perm, list_elem_of_fmap. split.
  - intros ([c' w] & -> & Hin). apply elem_of_map_to_list in Hin. by exists w.
  - intros [w Hw]. exists (c, w). split; [done|]. by apply elem_of_map_to_list.
Qed.

Section LeavesResults.

Variable alloc : nat -> addr.

(** [nodes] allocates one leaf per entry, in iteration order. *)
Lemma nodes_loop_spec its : forall ns0 k,
  exists ns,
    nodes_loop alloc its ns0 k = Returns (ns0 ++ ns, (k + length its)%nat) /\
    Forall is_leaf ns /\ ns ≫= leaves = its.
Proof.
  induction its as [|[c w] its IH]; intros ns0 k; simpl.
  - exists []. rewrite app_nil_r, Nat.add_0_r. done.
  - unfold bind, leaf, new_Node. simpl.
    destruct (IH (ns0 ++ [At (alloc k) w c NULL NULL]) (S k)) as (ns & -> & Hl & Hb).
    exists (At (alloc k) w c NULL NULL :: ns). split; [|split].
    + rewrite <-app_assoc. simpl. do 2 f_equal. lia.
    + constructor; [|done]. by exists (alloc k), w, c.
    + rewrite bind_cons, Hb. done.
Qed.

Lemma nodes_spec hist k :
  exists ns,
    nodes alloc hist k = Returns (ns, (k + length (map_iter hist))%nat) /\
    Forall is_leaf ns /\ ns ≫= leaves = map_iter hist.
Proof. apply (nodes_loop_spec (map_iter hist) [] k). Qed.

End LeavesResults.

(** * Results on the tree builder *)

Lemma leaves_of_leaves (ts : list Node_ptr) :
  Forall is_leaf ts -> ts ≫= leaves = (fun t => (sym t, wt t)) <$> ts.
Proof.
  induction 1 as [|t ts (p & w & c & ->) _ IH]; [done|].
  rewrite bind_cons, IH. done.
Qed.

Lemma filter_fst_notin {A} (c : ascii) (L : list (ascii * A)) :
  c ∉ L.*1 -> filter (fun x => x.1 = c) L = [].
Proof.
  induction L as [|[c' w] L IH]; intros Hc; [done|].
  rewrite fmap_cons, not_elem_of_cons in Hc. destruct Hc as [Hne Hc].
  rewrite filter_cons_False by (simpl; congruence || auto). by apply IH.
Qed.

Lemma filter_fst_once {A} (c : ascii) (L : list (ascii * A)) :
  NoDup L.*1 -> c ∈ L.*1 -> length (filter (fun x => x.1 = c) L) = 1%nat.
Proof.
  induction L as [|[c' w] L IH]; intros Hnd Hc.
  - by apply elem_of_nil in Hc.
  - rewrite fmap_cons in Hnd, Hc. apply NoDup_cons in Hnd as [Hc' Hnd].
    destruct (decide (c' = c)) as [->|Hne].
    + rewrite filter_cons_True by done. by rewrite filter_fst_notin.
    + rewrite filter_cons_False by done. apply IH; [done|].
      apply elem_of_cons in Hc as [E|?]; [by symmetry in E|done].
Qed.

Section BuilderTheorems.

Variable alloc : nat -> addr.

(** The tree returned is full, its weights add up modulo the range of
    [int], and its leaves are the leaves of the trees passed in. *)
Lemma huffman_loop_forest fuel (ts : Nodes) k :
  ts <> [] -> (length ts <= S fuel)%nat -> Forall full ts -> Forall wrapped ts ->
  exists t,
    huffman_loop alloc fuel ts k = Returns (t, (k + (length ts - 1))%nat) /\
    full t /\ wrapped t /\ leaves t ≡ₚ ts ≫= leaves.
Proof.
  intros Hne Hlen Hf Hw.
  destruct (huffman_loop_inv alloc (forest (ts ≫= leaves))
              (forest_perm _) (forest_merge _) (forest_nonnull _)
              fuel ts k Hne Hlen) as (t & Ht & (Hft & Hwt & Hl)); [by split|].
  exists t. split; [done|].
  inversion Hft; subst. inversion Hwt; subst.
  rewrite bind_singleton in Hl. done.
Qed.

Lemma huffman_loop_in_range fuel (ts : Nodes) k :
  ts <> [] -> (length ts <= S fuel)%nat -> in_range ts ->
  exists t,
    huffman_loop alloc fuel ts k = Returns (t, (k + (length ts - 1))%nat) /\
    weighted t.
Proof.
  intros Hne Hlen Hr.
  destruct (huffman_loop_inv alloc in_range
              in_range_perm in_range_merge in_range_nonnull
              fuel ts k Hne Hlen Hr) as (t & Ht & (Hwt & _)).
  exists t. split; [done|]. by inversion Hwt.
Qed.

(** More fuel does not change a result. *)
Lemma huffman_loop_mono fuel : forall (ts : Nodes) k x fuel',
  huffman_loop alloc fuel ts k = Returns x -> (fuel <= fuel')%nat ->
  huffman_loop alloc fuel' ts k = Returns x.
Proof.
  induction fuel as [|fuel IH]; intros ts k x fuel' Hh Hle; simpl in Hh;
    destruct (decide (1 < length ts)%nat) as [Hgt|Hngt]; try done.
  - destruct fuel'; simpl; by rewrite decide_False.
  - destruct fuel' as [|fuel']; [lia|]. simpl. rewrite decide_True by done.
    unfold bind in *.
    destruct (huffman_body alloc ts k) as [[ts' k']| | |]; simpl in *; try done.
    apply IH; [done|lia].
  - destruct fuel'; simpl; by rewrite decide_False.
Qed.

(** C10. For every non-empty vector of non-null nodes (leaves in
    particular), every pass of the while loop of [huffman] on a vector of
    two or more nodes takes two nodes out of the vector and puts the node
    merged from them in, so that the vector returned is exactly one
    shorter; and the loop returns a tree as soon as it is allowed
    [length ts - 1] passes, after exactly [length ts - 1] allocations;
    [huffman] itself returns that tree. *)
Theorem huffman_terminates (ts : Nodes) (k : nat) :
  ts <> [] -> Forall (fun t => t <> NULL) ts ->
  ((2 <= length ts)%nat ->
     exists rest y x,
       ts ≡ₚ rest ++ [y; x] /\
       huffman_body alloc ts k = Returns (rest ++ [merged (alloc k) x y], S k) /\
       length (rest ++ [merged (alloc k) x y]) = (length ts - 1)%nat) /\
  exists t, t <> NULL /\
    (forall fuel, (length ts - 1 <= fuel)%nat ->
       huffman_loop alloc fuel ts k = Returns (t, (k + (length ts - 1))%nat)) /\
    huffman alloc ts k = Returns (t, (k + (length ts - 1))%nat).
Proof.
  intros Hne Hnn. split.
  - intros Hlen.
    destruct (huffman_body_spec alloc ts k Hlen Hnn) as (rest & y & x & Hp & Hb).
    exists rest, y, x. split; [done|]. split; [done|].
    rewrite (Permutation_length Hp), !length_app. simpl. lia.
  - assert (Hall : forall fuel, (length ts - 1 <= fuel)%nat ->
       exists t, huffman_loop alloc fuel ts k
                 = Returns (t, (k + (length ts - 1))%nat) /\ t <> NULL).
    { intros fuel Hfuel.
      destruct (huffman_loop_inv alloc (Forall (fun t => t <> NULL))
                  nonnull_perm nonnull_merge (fun _ H => H)
                  fuel ts k Hne) as (t & Ht & Hnt); [lia|done|].
      exists t. split; [done|]. by inversion Hnt. }
    destruct (Hall (length ts - 1)%nat) as (t & Ht & Hnt); [lia|].
    exists t. split; [done|]. split.
    + intros fuel Hfuel. by apply (huffman_loop_mono _ _ _ _ _ Ht).
    + apply (huffman_loop_mono _ _ _ _ _ Ht). lia.
Qed.

End BuilderTheorems.

Section TreeTheorems.

Variable alloc : nat -> addr.

Lemma leaves_full_wrapped (ts : list Node_ptr) :
  Forall is_leaf ts -> Forall full ts /\ Forall wrapped ts.
Proof.
  intros H. split; eapply Forall_impl; try exact H;
    intros t (p & w & c & ->); constructor.
Qed.

Lemma huffman_forest (ts : Nodes) k :
  ts <> [] -> Forall is_leaf ts ->
  exists t,
    huffman alloc ts k = Returns (t, (k + (length ts - 1))%nat) /\
    full t /\ wrapped t /\ leaves t ≡ₚ (fun t => (sym t, wt t)) <$> ts.
Proof.
  intros Hne Hl. destruct (leaves_full_wrapped ts Hl) as [Hf Hw].
  destruct (huffman_loop_forest alloc (length ts) ts k) as (t & Ht & ? & ? & Hp);
    [done|lia|done|done|].
  exists t. rewrite leaves_of_leaves in Hp by done. done.
Qed.

(** C8. For every non-empty vector of leaves with pairwise distinct
    symbols, [huffman] returns a tree in which every internal node has two
    children (a single leaf has no internal node); every internal node's
    weight is the sum of its children's weights, in [int] arithmetic, and
    exactly so when the leaves' weights are non-negative and their total is
    at most INT_MAX; and every input symbol is carried by exactly one leaf. *)
Theorem huffman_invariants (ts : Nodes) (k : nat) :
  ts <> [] -> Forall is_leaf ts -> NoDup (sym <$> ts) ->
  exists t k',
    huffman alloc ts k = Returns (t, k') /\
    t <> NULL /\
    (length ts = 1%nat -> is_leaf t) /\
    two_children t /\
    weights_add_wrapped t /\
    (Forall (fun t => 0 <= wt t) ts -> total (wt <$> ts) <= INT_MAX ->
       weights_add t) /\
    (forall c, c ∈ sym <$> ts ->
       length (filter (fun x => x.1 = c) (leaves t)) = 1%nat).
Proof.
  intros Hne Hl Hnd.
  destruct (huffman_forest ts k Hne Hl) as (t & Ht & Hf & Hw & Hp).
  exists t, (k + (length ts - 1))%nat. split; [done|].
  assert (Hsyms : (leaves t).*1 ≡ₚ sym <$> ts).
  { rewrite Hp, <-list_fmap_compose. done. }
  split; [by apply full_nonnull|]. split; [|split; [|split; [|split]]].
  - intros H1. destruct ts as [|t0 [|? ?]]; try done.
    unfold huffman in Ht. simpl in Ht. unfold lift in Ht. simpl in Ht.
    inversion Ht; subst. by inversion Hl.
  - by apply full_two_children.
  - by apply wrapped_weights_add.
  - intros Hpos Htot.
    destruct (huffman_loop_in_range alloc (length ts) ts k) as (t' & Ht' & Hwt);
      [done|lia| |].
    + split; [|done]. apply Forall_forall. intros x Hx.
      rewrite Forall_forall in Hl, Hpos.
      destruct (Hl x Hx) as (p & w & c & ->). constructor. by apply (Hpos _ Hx).
    + unfold huffman in Ht. rewrite Ht in Ht'. inversion Ht'; subst.
      by apply weighted_weights_add.
  - intros c Hc. apply filter_fst_once.
    + by rewrite Hsyms.
    + by rewrite Hsyms.
Qed.

(** C7. For every non-empty vector of leaves, [huffman] returns a tree,
    [codetable] returns a table for it, and for any two distinct symbols
    with an entry in that table neither code is a prefix of the other. *)
Theorem codetable_prefix_free (ts : Nodes) (k : nat) :
  ts <> [] -> Forall is_leaf ts ->
  exists t k' tab,
    huffman alloc ts k = Returns (t, k') /\
    codetable t = Returns tab /\
    forall a b ca cb, a <> b -> tab !! a = Some ca -> tab !! b = Some cb ->
      ~ ca `prefix_of` cb /\ ~ cb `prefix_of` ca.
Proof.
  intros Hne Hl.
  destruct (huffman_forest ts k Hne Hl) as (t & Ht & Hf & Hw & Hp).
  exists t, (k + (length ts - 1))%nat, (foldl (record []) ∅ (codes_of t)).
  split; [done|]. split; [by apply codetab_spec|].
  intros a b ca cb Hab Ha Hb.
  apply lookup_record_inv in Ha as [(qa & Hqa & ->)|Ha]; [|by rewrite lookup_empty in Ha].
  apply lookup_record_inv in Hb as [(qb & Hqb & ->)|Hb]; [|by rewrite lookup_empty in Hb].
  simpl. split; intros Hpre.
  - by destruct (codes_of_prefix t Hf _ _ _ _ Hqa Hqb Hpre).
  - by destruct (codes_of_prefix t Hf _ _ _ _ Hqb Hqa Hpre) as [-> _].
Qed.

End TreeTheorems.

(** * The pipeline: encode, then decode *)

Lemma codes_nonempty t c q :
  full t -> internal t -> (c, q) ∈ codes_of t -> q <> [].
Proof.
  intros Hf [_ Hi] Hin. destruct Hf as [|p w c0 l r Hl Hr]; simpl in *.
  - by destruct Hi.
  - destruct l as [|pl wl cl ll lr]; [by apply full_nonnull in Hl|].
    cbn [is_null andb] in Hin.
    apply elem_of_app in Hin as [Hin|Hin];
      apply list_elem_of_fmap in Hin as ([c' q'] & E & _);
      unfold prod_map in E; simpl in E; by simplify_eq.
Qed.

Lemma bind_length_ge {A B} (f : A -> list B) (s : list A) :
  (forall x, x ∈ s -> f x <> []) -> (length s <= length (s ≫= f))%nat.
Proof.
  induction s as [|x s IH]; intros H; [done|].
  rewrite bind_cons, length_app. simpl.
  assert (f x <> []) by (apply H; by left).
  assert (length s <= length (s ≫= f))%nat by (apply IH; intros; apply H; by right).
  destruct (f x); [done|simpl; lia].
Qed.

Lemma bind_all_nil {A B} (f : A -> list B) (s : list A) :
  (forall x, x ∈ s -> f x = []) -> s ≫= f = [].
Proof.
  induction s as [|x s IH]; intros H; [done|].
  rewrite bind_cons, H, IH; [done| |by left]. intros; apply H; by right.
Qed.

(** A full tree with two different symbols among its leaves has an
    internal root. *)
Lemma two_symbols_internal t a b :
  full t -> a ∈ (leaves t).*1 -> b ∈ (leaves t).*1 -> a <> b -> internal t.
Proof.
  intros Hf Ha Hb Hab. destruct Hf as [p w c|p w c l r Hl Hr].
  - simpl in Ha, Hb. apply list_elem_of_singleton in Ha, Hb. congruence.
  - split; [done|]. left. simpl. by apply full_nonnull.
Qed.

Section Pipeline.

Variable alloc : nat -> addr.

(** For a text with two different symbols the tree built is full, has an
    internal root, and carries every symbol of the text on exactly one
    leaf. *)
Lemma tree_of_spec (s : list ascii) k a b :
  a ∈ s -> b ∈ s -> a <> b ->
  exists t k',
    tree_of alloc s k = Returns (t, k') /\ full t /\ internal t /\
    NoDup (codes_of t).*1 /\ (forall c, c ∈ s -> c ∈ (codes_of t).*1).
Proof.
  intros Ha Hb Hab. unfold tree_of, bind.
  destruct (nodes_spec alloc (freq s) k) as (ns & -> & Hl & Hns). simpl.
  assert (Hin : forall c, c ∈ s -> c ∈ (map_iter (freq s)).*1).
  { intros c Hc. by apply elem_of_map_iter, freq_keys. }
  assert (Hne : ns <> []).
  { intros ->. rewrite <-Hns in Hin. specialize (Hin a Ha).
    by apply elem_of_nil in Hin. }
  destruct (leaves_full_wrapped ns Hl) as [Hf Hw].
  destruct (huffman_loop_forest alloc (length ns) ns
              (k + length (map_iter (freq s)))%nat)
    as (t & Ht & Hft & _ & Hp); [done|lia|done|done|].
  unfold huffman. rewrite Ht. eexists _, _. split; [done|].
  rewrite Hns in Hp.
  assert (Hsyms : (leaves t).*1 ≡ₚ (map_iter (freq s)).*1) by by rewrite Hp.
  split; [done|]. split; [|split].
  - apply (two_symbols_internal t a b); [done| | |done]; rewrite Hsyms; auto.
  - rewrite codes_of_symbols, Hsyms. apply map_iter_NoDup.
  - intros c Hc. rewrite codes_of_symbols, Hsyms. auto.
Qed.

(** C1, as the code has it. For every text with at least two different
    symbols, whatever addresses the allocator hands out, building the
    tree and the table from the text, encoding the text and decoding the
    result returns the text. *)
Theorem roundtrip_two_symbols (s : list ascii) (k : nat) (a b : ascii) :
  a ∈ s -> b ∈ s -> a <> b ->
  exists k', roundtrip alloc s k = Returns (s, k').
Proof.
  intros Ha Hb Hab.
  destruct (tree_of_spec s k a b Ha Hb Hab) as (t & k' & Ht & Hf & Hi & Hnd & Hin).
  exists k'. unfold roundtrip. unfold tree_of in Ht. unfold bind in *.
  destruct (nodes alloc (freq s) k) as [[ns k1]| | |]; simpl in *; try done.
  rewrite Ht. simpl. unfold codetable. rewrite codetab_spec by done.
  unfold lift. simpl. unfold encode. simpl.
  rewrite encode_loop_spec. simpl.
  set (tab := foldl (record []) ∅ (codes_of t)).
  assert (Hcode : forall c, c ∈ s -> (c, code_in tab c) ∈ codes_of t).
  { intros c Hc. apply Hin, list_elem_of_fmap in Hc as ([c' q] & -> & Hq).
    unfold code_in, tab. by rewrite (lookup_record_in [] _ _ _ q Hnd Hq). }
  unfold decode. rewrite (decode_loop_codes t (code_in tab)); try done.
  apply bind_length_ge. intros c Hc. by apply (codes_nonempty t c), Hcode.
Qed.

(** C9, as the code has it. For every non-empty text made of one symbol
    [c], the tree built is the single leaf for [c]; the table gives [c] the
    empty bit-string; the text is encoded as the empty bit-string; and
    decoding that returns the empty text. *)
Theorem single_symbol_pipeline (s : list ascii) (c : ascii) (k : nat) :
  s <> [] -> (forall x, x ∈ s -> x = c) ->
  exists w,
    let t := At (alloc k) w c NULL NULL in
    tree_of alloc s k = Returns (t, S k) /\
    codetable t = Returns {[c := []]} /\
    encode {[c := []]} s = Returns [] /\
    decode t [] = Returns [] /\
    roundtrip alloc s k = Returns ([], S k).
Proof.
  intros Hne Hall.
  assert (Hc : c ∈ s).
  { destruct s as [|x s]; [done|]. rewrite <-(Hall x); by left. }
  assert (HL : (map_iter (freq s)).*1 = [c]).
  { apply Permutation_singleton_r, NoDup_Permutation.
    - apply map_iter_NoDup.
    - apply NoDup_singleton.
    - intros x. rewrite elem_of_map_iter, freq_keys, list_elem_of_singleton.
      split; [by apply Hall|by intros ->]. }
  destruct (map_iter (freq s)) as [|[c' w] [|? ?]] eqn:HM; simplify_eq/=.
  exists w.
  assert (Htree : tree_of alloc s k = Returns (At (alloc k) w c NULL NULL, S k)).
  { unfold tree_of, nodes, bind. rewrite HM. done. }
  assert (Henc : encode_loop {[c := []]} s [] = []).
  { rewrite encode_loop_spec. simpl. apply bind_all_nil.
    intros x Hx. rewrite (Hall x Hx). unfold code_in.
    by rewrite lookup_singleton_eq. }
  split; [done|]. split; [done|]. split; [by unfold encode; rewrite Henc|].
  split; [done|].
  unfold roundtrip, bind. unfold tree_of, bind in Htree.
  destruct (nodes alloc (freq s) k) as [[ns k1]| | |]; simpl in *; try done.
  rewrite Htree. simpl. unfold encode.
  change (codetable (At (alloc k) w c NULL NULL)) with
    (Returns (<[c := []]> (∅ : gmap ascii (list ascii)))).
  unfold lift. simpl. rewrite insert_empty, Henc. done.
Qed.

End Pipeline.

(** * Failure modes *)

(** C4, as the code has it. [encode] never fails: it returns the
    concatenation of the table's entries for the symbols of the text, and
    a symbol without an entry contributes the empty bit-string. *)
Theorem encode_never_fails (codes : gmap ascii (list ascii)) (w : list ascii) :
  encode codes w = Returns (w ≫= code_in codes) /\
  (forall c, codes !! c = None -> code_in codes c = []).
Proof.
  split.
  - unfold encode. by rewrite encode_loop_spec.
  - intros c Hc. unfold code_in. by rewrite Hc.
Qed.

Lemma quiet_obind {A B} (m : outcome A) (f : A -> outcome B) :
  quiet m -> (forall a, quiet (f a)) -> quiet (obind m f).
Proof.
  intros Hm Hf e. destruct m as [a|e'| |]; simpl; try done.
  - apply Hf.
  - intros _. by apply (Hm e').
Qed.

Lemma quiet_at_index (ts : Nodes) i : quiet (at_index ts i).
Proof. intros e. unfold at_index. by destruct (ts !! i). Qed.

Lemma quiet_std_swap (ts : Nodes) i j : quiet (std_swap ts i j).
Proof.
  apply quiet_obind; [apply quiet_at_index|]. intros x.
  apply quiet_obind; [apply quiet_at_index|]. by intros y e.
Qed.

Lemma quiet_swap (ts : Nodes) i j k : quiet (swap ts i j k).
Proof.
  apply quiet_obind; [apply quiet_at_index|]. intros tj.
  apply quiet_obind; [apply quiet_at_index|]. intros tk.
  destruct (ptr_lt tj tk); apply quiet_std_swap.
Qed.

Lemma quiet_scan m n : forall (ts : Nodes), quiet (scan m n ts).
Proof.
  induction m as [|i IH]; intros ts; simpl; [by intros e|].
  apply quiet_obind; [apply quiet_at_index|]. intros ti.
  apply quiet_obind; [apply quiet_at_index|]. intros tl.
  apply quiet_obind; [|apply IH].
  destruct (ptr_lt ti (ptr_min tl tl)); [apply quiet_swap|by intros e].
Qed.

Lemma quiet_lift {A} (o : outcome A) k : quiet o -> quiet (lift o k).
Proof. intros Ho. apply quiet_obind; [done|]. by intros a e. Qed.

Lemma quiet_merge alloc a b k : quiet (merge alloc a b k).
Proof. intros e. destruct a, b; done. Qed.

Lemma quiet_huffman_body alloc (ts : Nodes) k : quiet (huffman_body alloc ts k).
Proof.
  unfold huffman_body, bind.
  apply quiet_obind; [apply quiet_lift, quiet_scan|]. intros [ts1 k1].
  apply quiet_obind; [apply quiet_lift, quiet_at_index|]. intros [a k2].
  apply quiet_obind; [apply quiet_lift, quiet_at_index|]. intros [b k3].
  apply quiet_obind; [apply quiet_merge|]. by intros [t k4] e.
Qed.

Lemma quiet_huffman_loop alloc fuel : forall (ts : Nodes) k,
  quiet (huffman_loop alloc fuel ts k).
Proof.
  induction fuel as [|fuel IH]; intros ts k; simpl;
    destruct (decide (1 < length ts)%nat);
    try (apply quiet_lift, quiet_at_index); [by intros e|].
  unfold bind. apply quiet_obind; [apply quiet_huffman_body|].
  intros [ts' k']. apply IH.
Qed.

(** C6, as the code has it. Whatever the allocator, [huffman] signals no
    error on any vector, and on an empty vector it returns no tree: it
    reads [ts.front()] of an empty vector, which is undefined behaviour. *)
Theorem huffman_empty_undefined (alloc : nat -> addr) (k : nat) :
  huffman alloc [] k = Undefined OutOfRange /\
  (forall ts : list Node_ptr, quiet (huffman alloc ts k)).
Proof.
  split; [reflexivity|]. intros ts. apply quiet_huffman_loop.
Qed.

Lemma eqb_bit_of b : Ascii.eqb "0" (bit_of b) = Ascii.eqb "0" b.
Proof. unfold bit_of. by destruct (Ascii.eqb "0" b) eqn:E. Qed.

Lemma walk_bit_of t : forall it,
  walk t (bit_of <$> it)
  = obind (walk t it) (fun r => Returns (r.1, bit_of <$> r.2)).
Proof.
  induction t as [|p w c l IHl r IHr]; intros it; simpl; [done|].
  destruct (is_null l && is_null r); [done|].
  destruct it as [|b it]; [done|]. rewrite fmap_cons, eqb_bit_of.
  destruct (Ascii.eqb "0" b); auto.
Qed.

Lemma decode_loop_bit_of root fuel : forall it w,
  decode_loop fuel root (bit_of <$> it) w = decode_loop fuel root it w.
Proof.
  induction fuel as [|fuel IH]; intros it w; destruct it as [|b it]; try done.
  rewrite fmap_cons. cbn [decode_loop]. rewrite <-fmap_cons, walk_bit_of.
  destruct (walk root (b :: it)) as [[lf it']| | |]; simpl; try done.
  destruct (symbol lf); simpl; try done.
Qed.

Lemma walk_no_throw t : forall it e, walk t it <> Throws e.
Proof.
  induction t as [|p w c l IHl r IHr]; intros it e; simpl; [done|].
  destruct (is_null l && is_null r); [done|].
  destruct it as [|b it]; [done|]. destruct (Ascii.eqb "0" b); auto.
Qed.

Lemma decode_loop_no_throw root fuel : forall it w e,
  decode_loop fuel root it w <> Throws e.
Proof.
  induction fuel as [|fuel IH]; intros it w e; destruct it as [|b it]; try done.
  cbn [decode_loop]. pose proof (walk_no_throw root (b :: it)) as Hnt.
  destruct (walk root (b :: it)) as [[lf it']|e'| |]; simpl; try done.
  - destruct lf; simpl; [done|]. apply IH.
  - intros H. by apply (Hnt e').
Qed.

(** What a walk consumes is, read by [bit_of], the path to the leaf it
    returns. *)
Lemma walk_inv t : full t -> forall it lf it',
  walk t it = Returns (lf, it') ->
  exists p, it = p ++ it' /\ (sym lf, bit_of <$> p) ∈ codes_of t /\ lf <> NULL.
Proof.
  induction 1 as [p0 w c|p0 w c l r Hl IHl Hr IHr]; intros it lf it' Hw.
  - simpl in Hw. simplify_eq. exists []. simpl. split; [done|].
    split; [by apply list_elem_of_singleton|done].
  - simpl in Hw. simpl.
    destruct l as [|pl wl cl ll lr]; [by apply full_nonnull in Hl|].
    cbn [is_null andb] in *.
    destruct it as [|b it]; [done|].
    destruct (Ascii.eqb "0" b) eqn:Eb.
    + apply IHl in Hw as (p & -> & Hin & Hnn). exists (b :: p).
      split; [done|]. split; [|done]. apply elem_of_app. left.
      apply list_elem_of_fmap. exists (sym lf, bit_of <$> p).
      split; [|done]. unfold prod_map, bit_of. simpl. by rewrite Eb.
    + apply IHr in Hw as (p & -> & Hin & Hnn). exists (b :: p).
      split; [done|]. split; [|done]. apply elem_of_app. right.
      apply list_elem_of_fmap. exists (sym lf, bit_of <$> p).
      split; [|done]. unfold prod_map, bit_of. simpl. by rewrite Eb.
Qed.

(** When [decode] returns, its input is a concatenation of complete codes. *)
Lemma decode_loop_inv root : full root -> forall fuel it w x,
  decode_loop fuel root it w = Returns x ->
  exists ps, Forall (fun cp => cp ∈ codes_of root) ps /\
             bit_of <$> it = ps ≫= snd /\ x = w ++ ps.*1.
Proof.
  intros Hf. induction fuel as [|fuel IH]; intros it w x Hd;
    destruct it as [|b it]; simpl in Hd; simplify_eq;
    try (exists []; by rewrite app_nil_r).
  destruct (walk root (b :: it)) as [[lf it']| | |] eqn:Hw; simpl in Hd; try done.
  apply (walk_inv root Hf) in Hw as (p & Hp & Hin & Hnn).
  destruct lf as [|pl wl cl ll lr]; [done|]. simpl in Hd, Hin.
  apply IH in Hd as (ps & Hps & Hbits & ->).
  exists ((cl, bit_of <$> p) :: ps). split; [by constructor|].
  rewrite Hp, fmap_app, bind_cons, Hbits, fmap_cons, <-app_assoc. done.
Qed.

Lemma walk_app t : forall it lf it' it2,
  walk t it = Returns (lf, it') -> walk t (it ++ it2) = Returns (lf, it' ++ it2).
Proof.
  induction t as [|p w c l IHl r IHr]; intros it lf it' it2 Hw; simpl in *; [done|].
  destruct (is_null l && is_null r); [by simplify_eq|].
  destruct it as [|b it]; [done|]. simpl.
  destruct (Ascii.eqb "0" b); auto.
Qed.

(** A walk along a path that stops short of a leaf reads past the end. *)
Lemma walk_truncated t : full t -> forall p c q,
  (c, q) ∈ codes_of t -> bit_of <$> p `prefix_of` q -> bit_of <$> p <> q ->
  walk t p = Undefined PastTheEnd.
Proof.
  induction 1 as [p0 w c0|p0 w c0 l r Hl IHl Hr IHr]; intros p c q Hin Hpre Hne.
  - simpl in Hin. apply list_elem_of_singleton in Hin. simplify_eq.
    by apply prefix_nil_inv in Hpre.
  - simpl in Hin. simpl.
    destruct l as [|pl wl cl ll lr]; [by apply full_nonnull in Hl|].
    cbn [is_null andb] in *.
    destruct p as [|b p]; [done|]. rewrite fmap_cons in Hpre, Hne.
    apply elem_of_app in Hin as [Hin|Hin];
      apply list_elem_of_fmap in Hin as ([c' q'] & E & Hin);
      unfold prod_map in E; simpl in E; simplify_eq;
      pose proof (prefix_cons_inv_1 _ _ _ _ Hpre) as Hb;
      apply prefix_cons_inv_2 in Hpre;
      rewrite <-(eqb_bit_of b), Hb; simpl.
    + apply (IHl p c' q'); [done|done|]. intros E. apply Hne. by rewrite Hb, E.
    + apply (IHr p c' q'); [done|done|]. intros E. apply Hne. by rewrite Hb, E.
Qed.

Lemma decode_loop_truncated root p :
  p <> [] -> walk root p = Undefined PastTheEnd ->
  forall fuel it w x fuel',
    decode_loop fuel root it w = Returns x -> (fuel < fuel')%nat ->
    decode_loop fuel' root (it ++ p) w = Undefined PastTheEnd.
Proof.
  intros Hp Hw.
  assert (Hnil : forall fuel' w, (0 < fuel')%nat ->
            decode_loop fuel' root p w = Undefined PastTheEnd).
  { intros [|fuel'] w ?; [lia|]. destruct p as [|b p]; [done|].
    cbn [decode_loop]. by rewrite Hw. }
  induction fuel as [|fuel IH]; intros it w x fuel' Hd Hlt;
    destruct it as [|b it]; simpl in Hd; simplify_eq;
    try (apply Hnil; lia).
  destruct (walk root (b :: it)) as [[lf it']| | |] eqn:Hwb; simpl in Hd; try done.
  destruct (symbol lf) as [c| | |] eqn:Hs; simpl in Hd; try done.
  destruct fuel' as [|fuel']; [lia|].
  change ((b :: it) ++ p) with (b :: (it ++ p)). cbn [decode_loop].
  change (b :: (it ++ p)) with ((b :: it) ++ p).
  rewrite (walk_app _ _ _ _ p Hwb). simpl. rewrite Hs. simpl.
  apply (IH _ _ x); [done|lia].
Qed.

(** C5, as the code has it. For a full tree, [decode] signals no error;
    it reads every character other than "0" as "1"; a bit-string that
    stops in the middle of a code after complete codes runs into
    undefined behaviour (the iterator is dereferenced at the end of the
    string); and when [decode] returns, the bit-string, so read, is the
    concatenation of the codes of the symbols returned, nothing left over. *)
Theorem decode_malformed (t : Node_ptr) :
  full t ->
  (forall bits e, decode t bits <> Throws e) /\
  (forall bits, decode t bits = decode t (bit_of <$> bits)) /\
  (forall bits w p c q,
     decode t bits = Returns w ->
     (c, q) ∈ codes_of t -> p <> [] ->
     bit_of <$> p `prefix_of` q -> bit_of <$> p <> q ->
     decode t (bits ++ p) = Undefined PastTheEnd) /\
  (forall bits w,
     decode t bits = Returns w ->
     exists ps, Forall (fun cp => cp ∈ codes_of t) ps /\
                bit_of <$> bits = ps ≫= snd /\ w = ps.*1).
Proof.
  intros Hf. split; [|split; [|split]].
  - intros bits e. apply decode_loop_no_throw.
  - intros bits. unfold decode. by rewrite length_fmap, decode_loop_bit_of.
  - intros bits w p c q Hd Hin Hp Hpre Hne. unfold decode in *.
    apply (decode_loop_truncated t p Hp (walk_truncated t Hf p c q Hin Hpre Hne)
             (length bits) bits [] w); [done|].
    rewrite length_app. destruct p; [done|simpl; lia].
  - intros bits w Hd. by apply (decode_loop_inv t Hf) in Hd.
Qed.

(** * Selection of the nodes to merge *)

Lemma ptr_min_same a : ptr_min a a = a.
Proof. unfold ptr_min. by destruct (ptr_lt a a). Qed.

Section ThreeLeaves.

Variable alloc : nat -> addr.

Lemma huffman_body_two k (x y : Node_ptr) :
  x <> NULL -> y <> NULL ->
  huffman_body alloc [x; y] k = Returns ([merged (alloc k) y x], S k).
Proof. intros Hx Hy. destruct x, y; done. Qed.

(** With three leaves, which of them is left out of the first merge is
    settled by the addresses: the weights take no part. *)
Lemma huffman_body_three k p0 p1 p2 w0 w1 w2 c0 c1 c2 :
  let l0 := At p0 w0 c0 NULL NULL in
  let l1 := At p1 w1 c1 NULL NULL in
  let l2 := At p2 w2 c2 NULL NULL in
  huffman_body alloc [l0; l1; l2] k =
    Returns (if p0 <? p2
             then if p2 <? p1 then [l1; merged (alloc k) l2 l0]
                  else [l2; merged (alloc k) l0 l1]
             else [l0; merged (alloc k) l2 l1], S k).
Proof.
  intros l0 l1 l2. unfold huffman_body, bind, lift.
  cbn [length Nat.sub scan at_index lookup list_lookup obind].
  rewrite ptr_min_same. unfold ptr_lt at 1. cbn [address l0 l2].
  destruct (p0 <? p2) eqn:E1; [|done].
  unfold swap. cbn [at_index lookup list_lookup obind].
  unfold ptr_lt. cbn [address l1 l2].
  destruct (p2 <? p1) eqn:E2; done.
Qed.

(** Hence the leaf that ends at depth 1 is chosen before any weight is
    looked at, and the cost of the tree follows. *)
Lemma depth_one_leaf_by_address k p0 p1 p2 c0 c1 c2 :
  exists i, (i < 3)%nat /\ forall w0 w1 w2,
    exists t,
      huffman alloc [At p0 w0 c0 NULL NULL; At p1 w1 c1 NULL NULL;
                     At p2 w2 c2 NULL NULL] k = Returns (t, S (S k)) /\
      cost t = 2 * (w0 + w1 + w2) - nth i [w0; w1; w2] 0.
Proof.
  destruct (p0 <? p2) eqn:E1; [destruct (p2 <? p1) eqn:E2|].
  - exists 1%nat. split; [lia|]. intros w0 w1 w2. eexists.
    unfold huffman. cbn [length huffman_loop]. rewrite decide_True by lia.
    unfold bind at 1. rewrite huffman_body_three, E1, E2. cbn [obind fst snd length].
    rewrite decide_True by lia. unfold bind. rewrite huffman_body_two by done.
    cbn [obind fst snd length]. rewrite decide_False by lia.
    split; [reflexivity|]. unfold cost. simpl. lia.
  - exists 2%nat. split; [lia|]. intros w0 w1 w2. eexists.
    unfold huffman. cbn [length huffman_loop]. rewrite decide_True by lia.
    unfold bind at 1. rewrite huffman_body_three, E1, E2. cbn [obind fst snd length].
    rewrite decide_True by lia. unfold bind. rewrite huffman_body_two by done.
    cbn [obind fst snd length]. rewrite decide_False by lia.
    split; [reflexivity|]. unfold cost. simpl. lia.
  - exists 0%nat. split; [lia|]. intros w0 w1 w2. eexists.
    unfold huffman. cbn [length huffman_loop]. rewrite decide_True by lia.
    unfold bind at 1. rewrite huffman_body_three, E1. cbn [obind fst snd length].
    rewrite decide_True by lia. unfold bind. rewrite huffman_body_two by done.
    cbn [obind fst snd length]. rewrite decide_False by lia.
    split; [reflexivity|]. unfold cost. simpl. lia.
Qed.

End ThreeLeaves.

(** Whatever the allocator and wherever three leaves live, there are
    weights for them on which the tree returned is not optimal. *)
Lemma huffman_not_optimal_somewhere (alloc : nat -> addr) k p0 p1 p2 c0 c1 c2 :
  exists w0 w1 w2 t k',
    0 < w0 /\ 0 < w1 /\ 0 < w2 /\
    huffman alloc [At p0 w0 c0 NULL NULL; At p1 w1 c1 NULL NULL;
                   At p2 w2 c2 NULL NULL] k = Returns (t, k') /\
    ~ optimal t.
Proof.
  destruct (depth_one_leaf_by_address alloc k p0 p1 p2 c0 c1 c2) as (i & Hi & H).
  set (w := fun j : nat => if decide (j = i) then 1 else 2).
  destruct (H (w 0%nat) (w 1%nat) (w 2%nat)) as (t & Ht & Hc).
  exists (w 0%nat), (w 1%nat), (w 2%nat), t, (S (S k)).
  assert (Hw : forall j, 0 < w j) by (intros j; unfold w; case_decide; lia).
  split; [done|]. split; [done|]. split; [done|]. split; [done|].
  destruct (huffman_forest alloc
              [At p0 (w 0%nat) c0 NULL NULL; At p1 (w 1%nat) c1 NULL NULL;
               At p2 (w 2%nat) c2 NULL NULL] k) as (t' & Ht' & _ & _ & Hl);
    [done|repeat constructor; by eexists _, _, _|].
  rewrite Ht in Ht'. inversion Ht'; subst t'. clear Ht'.
  assert (Hws : (leaves t).*2 ≡ₚ [1; 2; 2]).
  { rewrite Hl. simpl.
    destruct i as [|[|[|i]]]; try lia; unfold w; simpl.
    - done.
    - apply perm_swap.
    - etrans; [apply perm_skip, perm_swap|apply perm_swap]. }
  assert (Hcost : cost t = 9).
  { rewrite Hc. destruct i as [|[|[|i]]]; try lia; unfold w; simpl; lia. }
  intros Hopt.
  specialize (Hopt (At 0 5 zero
                      (At 0 3 zero (At 0 1 zero NULL NULL) (At 0 2 zero NULL NULL))
                      (At 0 2 zero NULL NULL))).
  rewrite Hcost in Hopt. unfold cost in Hopt. simpl in Hopt.
  assert (9 <= 8); [|lia]. apply Hopt.
  - repeat constructor.
  - by rewrite Hws.
Qed.

(** C2, on the input where the code departs from it. The leaves for
    "aaabbc" are allocated at ascending addresses; the first pass of
    [huffman] merges the leaves of weight 3 and 2 and leaves the lightest
    one, of weight 1, aside, although [Node_lt] ranks it first; and with
    the same three leaves at the addresses in the opposite order the pass
    merges the leaves of weight 1 and 2: the pair is picked by address. *)
Theorem huffman_selects_by_address :
  nodes bump (freq (str "aaabbc")) 0%nat = Returns ([leaf_a; leaf_b; leaf_c], 3%nat) /\
  huffman_body bump [leaf_a; leaf_b; leaf_c] 3%nat
    = Returns ([leaf_c; merged 4192 leaf_a leaf_b], 4%nat) /\
  Node_lt leaf_c leaf_a = Returns true /\
  Node_lt leaf_c leaf_b = Returns true /\
  huffman_body bump [At 4160 3 "a" NULL NULL; At 4128 2 "b" NULL NULL;
                     At 4096 1 "c" NULL NULL] 3%nat
    = Returns ([At 4160 3 "a" NULL NULL;
                merged 4192 (At 4096 1 "c" NULL NULL) (At 4128 2 "b" NULL NULL)],
               4%nat).
Proof. repeat split; vm_compute; reflexivity. Qed.

(** C3, on the same input. The tree [huffman] returns for the leaves of
    "aaabbc" has weighted path length 11, and a full tree over the same
    leaves has weighted path length 9: the tree returned is not optimal. *)
Theorem huffman_not_optimal :
  exists t,
    huffman bump [leaf_a; leaf_b; leaf_c] 3%nat = Returns (t, 5%nat) /\
    cost t = 11 /\
    (exists t', full t' /\ leaves t' ≡ₚ leaves t /\ cost t' = 9) /\
    ~ optimal t.
Proof.
  eexists. split; [vm_compute; reflexivity|]. split; [reflexivity|].
  assert (Hbetter :
    let t' := At 0 6 zero leaf_a (At 0 3 zero leaf_b leaf_c) in
    full t' /\
    leaves t' ≡ₚ leaves (At 4224 6 zero (At 4192 5 zero leaf_a leaf_b) leaf_c) /\
    cost t' = 9).
  { split; [repeat constructor|]. split; [|reflexivity]. simpl. done. }
  split; [eexists; exact Hbetter|].
  intros Hopt. destruct Hbetter as (Hf & Hl & Hc).
  specialize (Hopt _ Hf). rewrite Hc in Hopt.
  assert (11 <= 9); [|lia]. apply Hopt. by rewrite Hl.
Qed.

(** * Concrete runs *)

Example tree_ab_built : tree_of bump (str "ab") 0%nat = Returns (tree_ab, 3%nat).
Proof. vm_compute. reflexivity. Qed.

Example table_ab_built : codetable tree_ab = Returns table_ab.
Proof. vm_compute. reflexivity. Qed.

Example tree_aaabbc_built :
  tree_of bump (str "aaabbc") 0%nat = Returns (tree_aaabbc, 5%nat).
Proof. vm_compute. reflexivity. Qed.

Example roundtrip_hello_runs : exists k, roundtrip bump hello 0%nat = Returns (hello, k).
Proof. eexists. vm_compute. reflexivity. Qed.

(** Counterexample to C1, on a text made of one symbol: "a" is encoded as the empty
    bit-string, which decodes to the empty text. *)
Lemma roundtrip_one_symbol_fails :
  ~ (exists k', roundtrip bump (str "a") 0%nat = Returns (str "a", k')).
Proof. intros [k' H]. vm_compute in H. discriminate H. Qed.

Lemma roundtrip_two_symbols_witness :
  "h"%char ∈ hello /\ "e"%char ∈ hello /\ "h"%char <> "e"%char /\
  exists k', roundtrip bump hello 0%nat = Returns (hello, k').
Proof.
  assert (H1 : "h"%char ∈ hello) by (unfold hello, str; simpl; repeat constructor).
  assert (H2 : "e"%char ∈ hello) by (unfold hello, str; simpl; repeat constructor).
  assert (H3 : "h"%char <> "e"%char) by discriminate.
  split; [exact H1|]. split; [exact H2|]. split; [exact H3|].
  exact (roundtrip_two_symbols bump hello 0%nat "h"%char "e"%char H1 H2 H3).
Defined.

(** Counterexample to C4, on the table built from "ab" and the text "abc": [encode]
    returns the codes of "a" and "b" and nothing for "c". *)
Lemma encode_unknown_symbol_returns :
  "c"%char ∈ str "abc" /\ table_ab !! "c"%char = None /\
  encode table_ab (str "abc") = Returns (str "10") /\
  encode table_ab (str "abc") <> Throws UnknownSymbolError.
Proof.
  split; [unfold str; simpl; repeat constructor|].
  split; [vm_compute; reflexivity|].
  split; [vm_compute; reflexivity|]. discriminate.
Qed.

(** Counterexample to C5, on the tree built from "ab" and the bit-string "2", which
    [decode] reads as "1", and on the tree built from "aaabbc" and the
    bit-string "10", which stops in the middle of a code: no error is
    signalled in either case. *)
Lemma decode_malformed_no_error :
  decode tree_ab (str "2") = Returns (str "a") /\
  decode tree_ab (str "2") <> Throws MalformedBitStringError /\
  decode tree_aaabbc (str "10") = Undefined PastTheEnd /\
  decode tree_aaabbc (str "10") <> Throws MalformedBitStringError.
Proof. repeat split; try (vm_compute; reflexivity); discriminate. Qed.

Lemma decode_malformed_witness :
  full tree_aaabbc /\
  decode tree_aaabbc (str "1x0") = decode tree_aaabbc (bit_of <$> str "1x0") /\
  decode tree_aaabbc (str "1" ++ str "0") = Undefined PastTheEnd.
Proof.
  assert (Hf : full tree_aaabbc) by repeat constructor.
  destruct (decode_malformed tree_aaabbc Hf) as (_ & Hread & Htrunc & _).
  split; [exact Hf|]. split; [apply Hread|].
  apply (Htrunc (str "1") (str "c") (str "0") "a"%char (str "00")).
  - vm_compute. reflexivity.
  - unfold tree_aaabbc, leaf_a, leaf_b, leaf_c, str. simpl. repeat constructor.
  - discriminate.
  - exists (str "0"). reflexivity.
  - discriminate.
Defined.

(** Counterexample to C6, on the empty vector: the call is undefined
    and nothing is signalled. *)
Lemma huffman_empty_no_error :
  huffman bump [] 0%nat = Undefined OutOfRange /\
  huffman bump [] 0%nat <> Throws EmptyInputError.
Proof. split; [reflexivity|discriminate]. Qed.

Lemma three_leaves_hyps :
  [leaf_a; leaf_b; leaf_c] <> [] /\ Forall is_leaf [leaf_a; leaf_b; leaf_c] /\
  NoDup (sym <$> [leaf_a; leaf_b; leaf_c]) /\
  Forall (fun t => t <> NULL) [leaf_a; leaf_b; leaf_c].
Proof.
  split; [discriminate|]. split; [|split].
  - repeat constructor; by eexists _, _, _.
  - simpl. repeat constructor; rewrite ?elem_of_cons, ?elem_of_nil;
      intros H; repeat destruct H as [H|H]; discriminate || done.
  - repeat constructor; discriminate.
Defined.

Lemma codetable_prefix_free_witness :
  [leaf_a; leaf_b; leaf_c] <> [] /\ Forall is_leaf [leaf_a; leaf_b; leaf_c] /\
  exists t k' tab,
    huffman bump [leaf_a; leaf_b; leaf_c] 3%nat = Returns (t, k') /\
    codetable t = Returns tab /\
    forall a b ca cb, a <> b -> tab !! a = Some ca -> tab !! b = Some cb ->
      ~ ca `prefix_of` cb /\ ~ cb `prefix_of` ca.
Proof.
  destruct three_leaves_hyps as (Hne & Hl & _ & _).
  split; [exact Hne|]. split; [exact Hl|].
  exact (codetable_prefix_free bump [leaf_a; leaf_b; leaf_c] 3%nat Hne Hl).
Defined.

Lemma huffman_invariants_witness :
  [leaf_a; leaf_b; leaf_c] <> [] /\ Forall is_leaf [leaf_a; leaf_b; leaf_c] /\
  NoDup (sym <$> [leaf_a; leaf_b; leaf_c]) /\
  exists t k',
    huffman bump [leaf_a; leaf_b; leaf_c] 3%nat = Returns (t, k') /\
    two_children t /\ weights_add t /\
    length (filter (fun x => x.1 = "b"%char) (leaves t)) = 1%nat.
Proof.
  destruct three_leaves_hyps as (Hne & Hl & Hnd & _).
  split; [exact Hne|]. split; [exact Hl|]. split; [exact Hnd|].
  destruct (huffman_invariants bump [leaf_a; leaf_b; leaf_c] 3%nat Hne Hl Hnd)
    as (t & k' & Ht & _ & _ & H2 & _ & Hw & Hc).
  exists t, k'. split; [exact Ht|]. split; [exact H2|]. split.
  - apply Hw; [repeat constructor; simpl; lia|vm_compute; discriminate].
  - apply Hc. simpl. repeat constructor.
Defined.

Lemma huffman_terminates_witness :
  [leaf_a; leaf_b; leaf_c] <> [] /\
  Forall (fun t => t <> NULL) [leaf_a; leaf_b; leaf_c] /\
  exists t, huffman bump [leaf_a; leaf_b; leaf_c] 3%nat = Returns (t, 5%nat).
Proof.
  destruct three_leaves_hyps as (Hne & _ & _ & Hnn).
  split; [exact Hne|]. split; [exact Hnn|].
  destruct (huffman_terminates bump [leaf_a; leaf_b; leaf_c] 3%nat Hne Hnn)
    as (_ & t & _ & _ & Ht).
  exists t. exact Ht.
Defined.

(** Counterexample to C9, on "aa": the tree is one leaf and the code of "a" is empty,
    but decoding the encoding of "aa" does not return "aa". *)
Lemma single_symbol_roundtrip_fails :
  ~ (exists t k' tab bits,
       tree_of bump (str "aa") 0%nat = Returns (t, k') /\
       is_leaf t /\
       codetable t = Returns tab /\
       (tab !! "a"%char = Some [] \/ exists b, tab !! "a"%char = Some [b]) /\
       encode tab (str "aa") = Returns bits /\
       decode t bits = Returns (str "aa")).
Proof.
  intros (t & k' & tab & bits & Ht & _ & Htab & _ & Henc & Hdec).
  vm_compute in Ht. injection Ht as <- <-.
  vm_compute in Htab. injection Htab as <-.
  vm_compute in Henc. injection Henc as <-.
  vm_compute in Hdec. discriminate Hdec.
Qed.

Lemma single_symbol_pipeline_witness :
  str "aaa" <> [] /\ (forall x, x ∈ str "aaa" -> x = "a"%char) /\
  roundtrip bump (str "aaa") 0%nat = Returns ([], 1%nat).
Proof.
  assert (H1 : str "aaa" <> []) by discriminate.
  assert (H2 : forall x, x ∈ str "aaa" -> x = "a"%char).
  { intros x Hx. unfold str in Hx. simpl in Hx.
    rewrite !elem_of_cons, elem_of_nil in Hx. tauto. }
  split; [exact H1|]. split; [exact H2|].
  destruct (single_symbol_pipeline bump (str "aaa") "a"%char 0%nat H1 H2)
    as (w & _ & _ & _ & _ & Hr).
  exact Hr.
Defined.


(** * The histogram *)

Lemma occ_cons c x w : occ c (x :: w) = (if decide (x = c) then 1 else 0) + occ c w.
Proof.
  unfold occ. rewrite filter_cons. destruct (decide (x = c)); simpl; lia.
Qed.

Lemma occ_nonneg c w : 0 <= occ c w.
Proof. unfold occ. lia. Qed.

Lemma occ_le_length c w : occ c w <= Z.of_nat (length w).
Proof. unfold occ. pose proof (length_filter (fun x => x = c) w). lia. Qed.

Lemma occ_pos c w : c ∈ w -> 0 < occ c w.
Proof.
  induction 1 as [c w|c x w _ IH]; rewrite occ_cons.
  - rewrite decide_True by done. pose proof (occ_nonneg c w). lia.
  - destruct (decide (x = c)); lia.
Qed.

(** Counting from a histogram that leaves room: every count grows by the
    number of occurrences. *)
Lemma freq_fold_count w : forall hist : gmap ascii Z,
  (forall c, 0 <= default 0 (hist !! c) /\ default 0 (hist !! c) + occ c w <= INT_MAX) ->
  forall c, default 0 (foldl freq_step hist w !! c) = default 0 (hist !! c) + occ c w.
Proof.
  induction w as [|x w IH]; intros hist Hroom c; simpl.
  - unfold occ. simpl. lia.
  - assert (Hstep : forall c', default 0 (freq_step hist x !! c')
              = default 0 (hist !! c') + (if decide (x = c') then 1 else 0)).
    { intros c'. unfold freq_step. destruct (decide (x = c')) as [->|Hne].
      - rewrite lookup_insert_eq. simpl. apply int_wrap_id.
        destruct (Hroom c') as [H0 H1]. rewrite occ_cons, decide_True in H1 by done.
        pose proof (occ_nonneg c' w). unfold INT_MAX in *. lia.
      - rewrite lookup_insert_ne by done. lia. }
    rewrite IH.
    + rewrite Hstep, occ_cons. lia.
    + intros c'. rewrite Hstep. destruct (Hroom c') as [H0 H1].
      rewrite occ_cons in H1. destruct (decide (x = c')); lia.
Qed.

(** X1. For a text of at most INT_MAX characters, the histogram [freq]
    returns maps every symbol of the text to the number of its occurrences
    and has no entry for any other symbol. *)
Theorem freq_counts (w : list ascii) (c : ascii) :
  Z.of_nat (length w) <= INT_MAX ->
  freq w !! c = if decide (c ∈ w) then Some (occ c w) else None.
Proof.
  intros Hlen. destruct (decide (c ∈ w)) as [Hin|Hnin].
  - apply freq_keys in Hin as Hs. destruct Hs as [n Hn].
    pose proof (freq_fold_count w ∅) as Hc. unfold freq in *.
    rewrite Hn. f_equal. specialize (Hc ltac:(intros c'; rewrite lookup_empty; simpl;
      pose proof (occ_le_length c' w); pose proof (occ_nonneg c' w); lia) c).
    rewrite Hn, lookup_empty in Hc. simpl in Hc. lia.
  - destruct (freq w !! c) as [n|] eqn:Hn; [|done].
    exfalso. apply Hnin, freq_keys. by exists n.
Qed.

Lemma freq_counts_witness :
  Z.of_nat (length hello) <= INT_MAX /\ freq hello !! "l"%char = Some 3.
Proof.
  assert (H : Z.of_nat (length hello) <= INT_MAX) by (vm_compute; discriminate).
  split; [exact H|]. rewrite (freq_counts hello "l"%char H). reflexivity.
Defined.

(** * The leaves *)

Lemma char_val_inj c1 c2 : char_val c1 = char_val c2 -> c1 = c2.
Proof.
  unfold char_val. intros H.
  pose proof (N_ascii_bounded c1) as H1. pose proof (N_ascii_bounded c2) as H2.
  rewrite <-(ascii_N_embedding c1), <-(ascii_N_embedding c2). f_equal.
  destruct (Z.of_N (N_of_ascii c1) <? 128) eqn:E1;
    destruct (Z.of_N (N_of_ascii c2) <? 128) eqn:E2; lia.
Qed.

#[local] Instance key_le_total : Total key_le.
Proof. intros x y. unfold key_le. lia. Qed.

#[local] Instance key_le_trans : Transitive key_le.
Proof. intros x y z. unfold key_le. lia. Qed.

Lemma sorted_distinct_keys (L : list (ascii * Z)) :
  StronglySorted key_le L -> NoDup L.*1 -> StronglySorted key_lt L.
Proof.
  induction 1 as [|x L Hs IH Hall]; intros Hnd; constructor.
  - apply IH. rewrite fmap_cons in Hnd. by apply NoDup_cons in Hnd as [_ ?].
  - rewrite fmap_cons in Hnd. apply NoDup_cons in Hnd as [Hx _].
    rewrite Forall_forall in Hall. apply Forall_forall. intros y Hy.
    specialize (Hall y Hy). unfold key_le, key_lt in *.
    destruct (decide (char_val x.1 = char_val y.1)) as [E|E]; [|lia].
    apply char_val_inj in E. exfalso. apply Hx. rewrite E.
    apply list_elem_of_fmap. by exists y.
Qed.

(** A [std::map] is iterated in strictly ascending key order. *)
Lemma map_iter_sorted hist : StronglySorted key_lt (map_iter hist).
Proof.
  apply sorted_distinct_keys; [|apply map_iter_NoDup].
  apply StronglySorted_merge_sort; apply _.
Qed.

Lemma nodes_loop_imap alloc its : forall ns0 k,
  nodes_loop alloc its ns0 k =
    Returns (ns0 ++ imap (fun i cw => At (alloc (k + i)%nat) cw.2 cw.1 NULL NULL) its,
             (k + length its)%nat).
Proof.
  induction its as [|[c w] its IH]; intros ns0 k; simpl.
  - unfold ret. by rewrite app_nil_r, Nat.add_0_r.
  - unfold bind, leaf, new_Node. simpl. rewrite IH, <-app_assoc. simpl.
    rewrite Nat.add_0_r. f_equal. f_equal; [|lia]. do 2 f_equal.
    apply imap_ext. intros i x _. simpl. do 2 f_equal. lia.
Qed.

(** X2. [nodes] returns one leaf per entry of the histogram, in strictly
    ascending order of the keys; the i-th leaf lives at the address of the
    i-th allocation made by the call and carries the entry's symbol and
    count; and the call makes as many allocations as the histogram has
    entries. *)
Theorem nodes_in_key_order (alloc : nat -> addr) (hist : gmap ascii Z) (k : nat) :
  nodes alloc hist k =
    Returns (imap (fun i cw => At (alloc (k + i)%nat) cw.2 cw.1 NULL NULL)
               (map_iter hist),
             (k + size hist)%nat) /\
  map_iter hist ≡ₚ map_to_list hist /\
  StronglySorted key_lt (map_iter hist).
Proof.
  split; [|split; [apply map_iter_perm|apply map_iter_sorted]].
  unfold nodes. rewrite nodes_loop_imap. simpl.
  by rewrite (Permutation_length (map_iter_perm hist)), length_map_to_list.
Qed.

(** * What a pass of [huffman] selects *)

Lemma last_two_min_app (rest : list Node_ptr) y x :
  last_two_min (rest ++ [y; x]) = Z.min (address x) (address y).
Proof.
  unfold last_two_min. rewrite length_app. simpl.
  replace (length rest + 2 - 1)%nat with (length rest + 1)%nat by lia.
  replace (length rest + 2 - 2)%nat with (length rest + 0)%nat by lia.
  rewrite !lookup_app_r by lia.
  replace (length rest + 1 - length rest)%nat with 1%nat by lia.
  replace (length rest + 0 - length rest)%nat with 0%nat by lia.
  done.
Qed.

(** One step of the inner loop, at index [i]: the vector is reordered
    above [i] only, and the least address of the last two cells does not
    grow and is at most the address that was in cell [i]. *)
Lemma scan_step_least (ts : list Node_ptr) i ti tl :
  (i < length ts - 2)%nat ->
  ts !! i = Some ti -> ts !! (length ts - 1)%nat = Some tl ->
  exists ts1,
    (if ptr_lt ti (ptr_min tl tl)
     then swap ts i (length ts - 1) (length ts - 2) else Returns ts) = Returns ts1 /\
    ts1 ≡ₚ ts /\
    (forall j, (j < i)%nat -> ts1 !! j = ts !! j) /\
    last_two_min ts1 <= last_two_min ts /\
    last_two_min ts1 <= address ti.
Proof.
  intros Hi Hti Htl.
  destruct (lookup_lt_is_Some_2 ts (length ts - 2)%nat) as [tk Htk]; [lia|].
  assert (Hm : last_two_min ts = Z.min (address tl) (address tk)).
  { unfold last_two_min. by rewrite Htl, Htk. }
  rewrite ptr_min_same. unfold ptr_lt at 1.
  destruct (address ti <? address tl) eqn:E1.
  - apply Z.ltb_lt in E1. unfold swap, at_index. rewrite Htl, Htk. simpl.
    unfold ptr_lt, std_swap, at_index. rewrite Hti.
    destruct (address tl <? address tk) eqn:E2.
    + apply Z.ltb_lt in E2. rewrite Htk. simpl. eexists. split; [done|].
      split; [by apply Permutation_insert_swap|]. split; [|split].
      * intros j Hj. rewrite !list_lookup_insert_ne by lia. done.
      * rewrite Hm. unfold last_two_min. rewrite !length_insert.
        rewrite list_lookup_insert_ne by lia. rewrite list_lookup_insert_ne by lia.
        rewrite list_lookup_insert_eq by (rewrite length_insert; lia).
        rewrite Htl. simpl. lia.
      * unfold last_two_min. rewrite !length_insert.
        rewrite list_lookup_insert_ne by lia. rewrite list_lookup_insert_ne by lia.
        rewrite list_lookup_insert_eq by (rewrite length_insert; lia).
        rewrite Htl. simpl. lia.
    + apply Z.ltb_ge in E2. rewrite Htl. simpl. eexists. split; [done|].
      split; [by apply Permutation_insert_swap|]. split; [|split].
      * intros j Hj. rewrite !list_lookup_insert_ne by lia. done.
      * rewrite Hm. unfold last_two_min. rewrite !length_insert.
        rewrite list_lookup_insert_eq by (rewrite length_insert; lia).
        rewrite list_lookup_insert_ne by lia. rewrite list_lookup_insert_ne by lia.
        rewrite Htk. simpl. lia.
      * unfold last_two_min. rewrite !length_insert.
        rewrite list_lookup_insert_eq by (rewrite length_insert; lia).
        rewrite list_lookup_insert_ne by lia. rewrite list_lookup_insert_ne by lia.
        rewrite Htk. simpl. lia.
  - apply Z.ltb_ge in E1. exists ts. split; [done|]. split; [done|].
    split; [done|]. split; [lia|]. rewrite Hm. lia.
Qed.

Lemma scan_least m : forall ts : list Node_ptr,
  (2 <= length ts)%nat -> (m <= length ts - 2)%nat ->
  exists ts',
    scan m (length ts) ts = Returns ts' /\ ts' ≡ₚ ts /\
    last_two_min ts' <= last_two_min ts /\
    forall j t, (j < m)%nat -> ts !! j = Some t -> last_two_min ts' <= address t.
Proof.
  induction m as [|i IH]; intros ts Hn Hm; simpl.
  - exists ts. split; [done|]. split; [done|]. split; [lia|]. intros; lia.
  - destruct (at_index_lt ts i) as (ti & Hti & ->); [lia|].
    destruct (at_index_lt ts (length ts - 1)) as (tl & Htl & ->); [lia|]. simpl.
    destruct (scan_step_least ts i ti tl) as (ts1 & -> & Hp & Hlow & Hmin & Hi);
      [lia|done|done|].
    simpl. pose proof (Permutation_length Hp) as Hl.
    destruct (IH ts1) as (ts' & Hs & Hp' & Hmin' & Hall); [lia|lia|].
    rewrite Hl in Hs. exists ts'. split; [done|]. split; [by rewrite Hp'|].
    split; [lia|]. intros j t Hj Ht.
    destruct (decide (j = i)) as [->|Hne].
    + rewrite Hti in Ht. inversion Ht; subst. lia.
    + apply (Hall j); [lia|]. rewrite Hlow by lia. done.
Qed.

Lemma huffman_body_of_scan alloc (ts rest : list Node_ptr) y x k :
  scan (length ts - 2) (length ts) ts = Returns (rest ++ [y; x]) ->
  length ts = (length rest + 2)%nat -> x <> NULL -> y <> NULL ->
  huffman_body alloc ts k = Returns (rest ++ [merged (alloc k) x y], S k).
Proof.
  intros Hs Hl Hx Hy. unfold huffman_body, bind, lift. rewrite Hs. simpl.
  unfold at_index. rewrite Hl.
  replace (length rest + 2 - 1)%nat with (length rest + 1)%nat by lia.
  replace (length rest + 2 - 2)%nat with (length rest + 0)%nat by lia.
  rewrite !lookup_app_r by lia.
  replace (length rest + 1 - length rest)%nat with 1%nat by lia.
  replace (length rest + 0 - length rest)%nat with 0%nat by lia.
  simpl. rewrite merge_spec by done. simpl. unfold ret. do 2 f_equal.
  unfold pop_back. rewrite length_insert, length_app. simpl.
  rewrite insert_app_r. simpl.
  replace (length rest + 2 - 1)%nat with (length rest + 1)%nat by lia.
  rewrite take_app_add'; done.
Qed.

(** X3. On a vector of two or more non-null nodes, a pass of the while
    loop of [huffman] merges two nodes one of which has the least address
    of all the nodes in the vector: the inner loop and [swap] always bring
    the lowest-addressed node into the last two cells. *)
Theorem huffman_body_merges_least_address
  (alloc : nat -> addr) (ts : list Node_ptr) (k : nat) :
  (2 <= length ts)%nat -> Forall (fun t => t <> NULL) ts ->
  exists rest y x,
    ts ≡ₚ rest ++ [y; x] /\
    huffman_body alloc ts k = Returns (rest ++ [merged (alloc k) x y], S k) /\
    forall t, t ∈ ts -> Z.min (address x) (address y) <= address t.
Proof.
  intros Hn Hnn.
  destruct (scan_least (length ts - 2) ts) as (ts' & Hs & Hp & Hmin & Hall);
    [done|lia|].
  pose proof (Permutation_length Hp) as Hl.
  destruct (split_last_two ts') as (rest & y & x & ->); [lia|].
  rewrite length_app in Hl. simpl in Hl.
  assert (Hxy : x <> NULL /\ y <> NULL).
  { rewrite <-Hp in Hnn. apply Forall_app in Hnn as [_ Hnn].
    inversion Hnn as [|? ? Hy Hnn']; subst. inversion Hnn'; subst. done. }
  destruct Hxy as [Hx Hy].
  exists rest, y, x. split; [done|].
  split; [apply huffman_body_of_scan; try done; lia|].
  rewrite last_two_min_app in Hmin, Hall.
  intros t [j Hj]%list_elem_of_lookup.
  destruct (decide (j < length ts - 2)%nat) as [Hlt|Hge]; [by apply (Hall j)|].
  pose proof (lookup_lt_Some _ _ _ Hj) as Hjl.
  assert (Z.min (address (default NULL (ts !! (length ts - 1)%nat)))
                (address (default NULL (ts !! (length ts - 2)%nat))) <= address t);
    [|unfold last_two_min in Hmin; lia].
  destruct (decide (j = length ts - 1)%nat) as [->|Hne].
  - rewrite Hj. simpl. lia.
  - replace (length ts - 2)%nat with j by lia. rewrite Hj. simpl. lia.
Qed.

Lemma huffman_body_merges_least_address_witness :
  (2 <= length [leaf_a; leaf_b; leaf_c])%nat /\
  Forall (fun t => t <> NULL) [leaf_a; leaf_b; leaf_c] /\
  exists rest y x,
    [leaf_a; leaf_b; leaf_c] ≡ₚ rest ++ [y; x] /\
    huffman_body bump [leaf_a; leaf_b; leaf_c] 3%nat
      = Returns (rest ++ [merged (bump 3) x y], 4%nat) /\
    forall t, t ∈ [leaf_a; leaf_b; leaf_c] -> Z.min (address x) (address y) <= address t.
Proof.
  assert (H1 : (2 <= length [leaf_a; leaf_b; leaf_c])%nat) by (simpl; lia).
  destruct three_leaves_hyps as (_ & _ & _ & Hnn).
  split; [exact H1|]. split; [exact Hnn|].
  exact (huffman_body_merges_least_address bump [leaf_a; leaf_b; leaf_c] 3%nat H1 Hnn).
Defined.

(** * The weights take no part in the construction *)

Lemma outcome_rel_obind {A B} (R : A -> A -> Prop) (S : B -> B -> Prop)
  (m m' : outcome A) (f f' : A -> outcome B) :
  outcome_rel R m m' ->
  (forall a a', R a a' -> outcome_rel S (f a) (f' a')) ->
  outcome_rel S (obind m f) (obind m' f').
Proof. destruct m, m'; simpl; try done. intros H Hf. by apply Hf. Qed.

Lemma same_shape_address a b : same_shape a b -> address a = address b.
Proof. by destruct 1. Qed.

Lemma same_shape_is_null a b : same_shape a b -> is_null a = is_null b.
Proof. by destruct 1. Qed.

Lemma same_shape_ptr_lt a a' b b' :
  same_shape a a' -> same_shape b b' -> ptr_lt a b = ptr_lt a' b'.
Proof.
  intros Ha Hb. unfold ptr_lt.
  by rewrite (same_shape_address _ _ Ha), (same_shape_address _ _ Hb).
Qed.

Lemma same_shape_at_index (ts ts' : list Node_ptr) i :
  Forall2 same_shape ts ts' ->
  outcome_rel same_shape (at_index ts i) (at_index ts' i).
Proof.
  intros H. unfold at_index. rewrite Forall2_lookup in H. specialize (H i).
  destruct H; simpl; done.
Qed.

Lemma same_shape_std_swap (ts ts' : list Node_ptr) i j :
  Forall2 same_shape ts ts' ->
  outcome_rel (Forall2 same_shape) (std_swap ts i j) (std_swap ts' i j).
Proof.
  intros H. unfold std_swap.
  eapply outcome_rel_obind; [by apply same_shape_at_index|]. intros x x' Hx.
  eapply outcome_rel_obind; [by apply same_shape_at_index|]. intros y y' Hy.
  simpl. by repeat apply Forall2_insert.
Qed.

Lemma same_shape_swap (ts ts' : list Node_ptr) i j k :
  Forall2 same_shape ts ts' ->
  outcome_rel (Forall2 same_shape) (swap ts i j k) (swap ts' i j k).
Proof.
  intros H. unfold swap.
  eapply outcome_rel_obind; [by apply same_shape_at_index|]. intros tj tj' Hj.
  eapply outcome_rel_obind; [by apply same_shape_at_index|]. intros tk tk' Hk.
  rewrite (same_shape_ptr_lt tj tj' tk tk') by done.
  destruct (ptr_lt tj' tk'); by apply same_shape_std_swap.
Qed.

Lemma same_shape_scan m n : forall ts ts' : list Node_ptr,
  Forall2 same_shape ts ts' ->
  outcome_rel (Forall2 same_shape) (scan m n ts) (scan m n ts').
Proof.
  induction m as [|i IH]; intros ts ts' H; simpl; [done|].
  eapply outcome_rel_obind; [by apply same_shape_at_index|]. intros ti ti' Hi.
  eapply outcome_rel_obind; [by apply same_shape_at_index|]. intros tl tl' Hl.
  eapply outcome_rel_obind; [|intros; by apply IH].
  rewrite !ptr_min_same. rewrite (same_shape_ptr_lt ti ti' tl tl') by done.
  destruct (ptr_lt ti' tl'); [by apply same_shape_swap|done].
Qed.

Lemma same_count_lift {A} (R : A -> A -> Prop) (o o' : outcome A) k :
  outcome_rel R o o' -> outcome_rel (same_count R) (lift o k) (lift o' k).
Proof.
  intros H. unfold lift. eapply outcome_rel_obind; [exact H|].
  intros a a' Ha. by split.
Qed.

Lemma same_shape_merge alloc a a' b b' k :
  same_shape a a' -> same_shape b b' ->
  outcome_rel (same_count same_shape) (merge alloc a b k) (merge alloc a' b' k).
Proof.
  intros Ha Hb. destruct Ha, Hb; simpl; try done.
  split; [|done]. simpl. by repeat constructor.
Qed.

Lemma same_shape_huffman_body alloc (ts ts' : list Node_ptr) k :
  Forall2 same_shape ts ts' ->
  outcome_rel (same_count (Forall2 same_shape))
    (huffman_body alloc ts k) (huffman_body alloc ts' k).
Proof.
  intros H. unfold huffman_body, bind.
  rewrite <-(Forall2_length _ _ _ H).
  eapply outcome_rel_obind; [by apply same_count_lift, same_shape_scan|].
  intros [ts1 k1] [ts1' k1'] [Hr Hk]. simpl in *. subst k1'.
  eapply outcome_rel_obind; [by apply same_count_lift, same_shape_at_index|].
  intros [a k2] [a' k2'] [Ha Hk]. simpl in *. subst k2'.
  eapply outcome_rel_obind; [by apply same_count_lift, same_shape_at_index|].
  intros [b k3] [b' k3'] [Hb Hk]. simpl in *. subst k3'.
  eapply outcome_rel_obind; [by apply same_shape_merge|].
  intros [t k4] [t' k4'] [Ht Hk]. simpl in *. subst. split; [|done]. simpl.
  unfold pop_back. rewrite !length_insert, <-(Forall2_length _ _ _ Hr).
  apply Forall2_take. by apply Forall2_insert.
Qed.

Lemma same_shape_huffman_loop alloc fuel : forall (ts ts' : list Node_ptr) k,
  Forall2 same_shape ts ts' ->
  outcome_rel (same_count same_shape)
    (huffman_loop alloc fuel ts k) (huffman_loop alloc fuel ts' k).
Proof.
  induction fuel as [|fuel IH]; intros ts ts' k H; simpl;
    rewrite <-(Forall2_length _ _ _ H);
    destruct (decide (1 < length ts)%nat);
    try (by apply same_count_lift, same_shape_at_index); [done|].
  unfold bind. eapply outcome_rel_obind; [by apply same_shape_huffman_body|].
  intros [ts1 k1] [ts1' k1'] [Hr Hk]. simpl in *. subst. by apply IH.
Qed.

Lemma same_shape_codetab t t' : same_shape t t' ->
  forall bits codes, codetab t bits codes = codetab t' bits codes.
Proof.
  induction 1 as [|p w w' c l l' r r' Hl IHl Hr IHr]; intros bits codes; simpl; [done|].
  rewrite (same_shape_is_null _ _ Hl), (same_shape_is_null _ _ Hr).
  destruct (is_null l' && is_null r'); [done|]. rewrite IHl.
  destruct (codetab l' (bits ++ ["0"%char]) codes); simpl; try done.
Qed.

(** X4. [huffman] never looks at a weight when it builds the tree: on two
    vectors whose nodes agree on everything but the weights it has the
    same outcome, and when it returns, the two trees agree on everything
    but the weights, the same number of nodes has been allocated, and the
    two trees give the same code table. *)
Theorem huffman_ignores_weights
  (alloc : nat -> addr) (ts ts' : list Node_ptr) (k : nat) :
  Forall2 same_shape ts ts' ->
  outcome_rel
    (fun r r' => same_shape r.1 r'.1 /\ r.2 = r'.2 /\ codetable r.1 = codetable r'.1)
    (huffman alloc ts k) (huffman alloc ts' k).
Proof.
  intros H. unfold huffman. rewrite <-(Forall2_length _ _ _ H).
  pose proof (same_shape_huffman_loop alloc (length ts) ts ts' k H) as Hr.
  destruct (huffman_loop alloc (length ts) ts k) as [[t k1]| | |],
           (huffman_loop alloc (length ts) ts' k) as [[t' k1']| | |];
    simpl in *; try done.
  destruct Hr as [Hs Hk]. split; [done|]. split; [done|].
  by apply same_shape_codetab.
Qed.

Lemma huffman_ignores_weights_witness :
  Forall2 same_shape [leaf_a; leaf_b; leaf_c]
    [At 4096 1 "a" NULL NULL; At 4128 1 "b" NULL NULL; At 4160 9 "c" NULL NULL] /\
  outcome_rel
    (fun r r' => same_shape r.1 r'.1 /\ r.2 = r'.2 /\ codetable r.1 = codetable r'.1)
    (huffman bump [leaf_a; leaf_b; leaf_c] 3%nat)
    (huffman bump
       [At 4096 1 "a" NULL NULL; At 4128 1 "b" NULL NULL; At 4160 9 "c" NULL NULL]
       3%nat).
Proof.
  assert (H : Forall2 same_shape [leaf_a; leaf_b; leaf_c]
    [At 4096 1 "a" NULL NULL; At 4128 1 "b" NULL NULL; At 4160 9 "c" NULL NULL])
    by (repeat constructor).
  split; [exact H|]. exact (huffman_ignores_weights bump _ _ 3%nat H).
Defined.

(** * The code table of any tree *)

Lemma full_or_not t : full t \/ ~ full t.
Proof.
  induction t as [|p w c l IHl r IHr]; [right; inversion 1|].
  destruct l as [|pl wl cl ll lr].
  - destruct r as [|pr wr cr rl rr]; [left; constructor|].
    right. inversion 1 as [|? ? ? ? ? Hl Hr]; subst. by apply full_nonnull in Hl.
  - destruct IHl as [Hl|Hl]; [|right; by inversion 1].
    destruct IHr as [Hr|Hr]; [|right; by inversion 1].
    left. by constructor.
Qed.

Lemma codetab_not_full t : ~ full t ->
  forall bits codes, codetab t bits codes = Undefined NullDeref.
Proof.
  induction t as [|p w c l IHl r IHr]; intros Hnf bits codes; simpl; [done|].
  destruct (is_null l && is_null r) eqn:E.
  - exfalso. apply Hnf. destruct l, r; try done. constructor.
  - destruct (full_or_not l) as [Hl|Hl].
    + rewrite codetab_spec by done. simpl. apply IHr.
      intros Hr. apply Hnf. by constructor.
    + by rewrite IHl.
Qed.

(** X6. [codetable] returns a table exactly for the trees in which every
    node is a leaf or has two children; on any other tree, the null
    pointer included, it dereferences a null pointer. *)
Theorem codetable_defined_iff_full (t : Node_ptr) :
  (full t -> exists tab, codetable t = Returns tab) /\
  (~ full t -> codetable t = Undefined NullDeref).
Proof.
  split.
  - intros Hf. eexists. by apply codetab_spec.
  - intros Hnf. by apply codetab_not_full.
Qed.

(** X5. For a full tree whose leaves carry pairwise distinct symbols, the
    table [codetable] returns has an entry exactly for the symbols of the
    leaves, and the entry of a symbol is the path that leads [walk] from
    the root to the leaf carrying that symbol, whatever input follows. *)
Theorem codetable_entries (t : Node_ptr) :
  full t -> NoDup (leaves t).*1 ->
  exists tab,
    codetable t = Returns tab /\
    (forall c, is_Some (tab !! c) <-> c ∈ (leaves t).*1) /\
    (forall c p rest, tab !! c = Some p ->
       exists lf, walk t (p ++ rest) = Returns (lf, rest) /\ symbol lf = Returns c).
Proof.
  intros Hf Hnd. exists (foldl (record []) ∅ (codes_of t)).
  split; [by apply codetab_spec|]. rewrite <-codes_of_symbols in *. split.
  - intros c. split.
    + intros [p Hp]. apply lookup_record_inv in Hp as [(q & Hq & _)|Hp];
        [|by rewrite lookup_empty in Hp].
      apply list_elem_of_fmap. by exists (c, q).
    + intros ([c' q] & -> & Hq)%list_elem_of_fmap.
      rewrite (lookup_record_in [] _ _ _ q Hnd Hq). by eexists.
  - intros c p rest Hp.
    apply lookup_record_inv in Hp as [(q & Hq & ->)|Hp];
      [|by rewrite lookup_empty in Hp].
    simpl. by apply walk_code.
Qed.

Lemma codetable_entries_witness :
  full tree_aaabbc /\ NoDup (leaves tree_aaabbc).*1 /\
  exists tab,
    codetable tree_aaabbc = Returns tab /\
    (forall c, is_Some (tab !! c) <-> c ∈ (leaves tree_aaabbc).*1).
Proof.
  assert (Hf : full tree_aaabbc) by repeat constructor.
  assert (Hnd : NoDup (leaves tree_aaabbc).*1).
  { simpl. repeat constructor; rewrite ?elem_of_cons, ?elem_of_nil;
      intros H; repeat destruct H as [H|H]; discriminate || done. }
  split; [exact Hf|]. split; [exact Hnd|].
  destruct (codetable_entries tree_aaabbc Hf Hnd) as (tab & Ht & Hk & _).
  exists tab. split; [exact Ht|exact Hk].
Defined.

(** X7. For every full tree with an internal root whose leaves carry
    pairwise distinct symbols, and every text over those symbols,
    [codetable], [encode] and [decode] return, and decoding the encoding
    of the text with the table of the tree returns the text. *)
Theorem encode_decode_any_tree (t : Node_ptr) (s : list ascii) :
  full t -> internal t -> NoDup (leaves t).*1 ->
  (forall c, c ∈ s -> c ∈ (leaves t).*1) ->
  exists tab bits,
    codetable t = Returns tab /\
    encode tab s = Returns bits /\
    decode t bits = Returns s.
Proof.
  intros Hf Hi Hnd Hin. rewrite <-codes_of_symbols in *.
  set (tab := foldl (record []) ∅ (codes_of t)).
  exists tab, (s ≫= code_in tab).
  split; [by apply codetab_spec|].
  split; [unfold encode; by rewrite encode_loop_spec|].
  assert (Hcode : forall c, c ∈ s -> (c, code_in tab c) ∈ codes_of t).
  { intros c Hc. apply Hin, list_elem_of_fmap in Hc as ([c' q] & -> & Hq).
    unfold code_in, tab. by rewrite (lookup_record_in [] _ _ _ q Hnd Hq). }
  unfold decode. rewrite (decode_loop_codes t (code_in tab)); try done.
  apply bind_length_ge. intros c Hc. by apply (codes_nonempty t c), Hcode.
Qed.

Lemma encode_decode_any_tree_witness :
  full tree_ab /\ internal tree_ab /\ NoDup (leaves tree_ab).*1 /\
  (forall c, c ∈ str "abba" -> c ∈ (leaves tree_ab).*1) /\
  exists tab bits,
    codetable tree_ab = Returns tab /\
    encode tab (str "abba") = Returns bits /\
    decode tree_ab bits = Returns (str "abba").
Proof.
  assert (Hf : full tree_ab) by repeat constructor.
  assert (Hi : internal tree_ab) by (split; [discriminate|left; discriminate]).
  assert (Hnd : NoDup (leaves tree_ab).*1).
  { simpl. repeat constructor; rewrite ?elem_of_cons, ?elem_of_nil;
      intros H; repeat destruct H as [H|H]; discriminate || done. }
  assert (Hin : forall c, c ∈ str "abba" -> c ∈ (leaves tree_ab).*1).
  { intros c Hc. unfold str in Hc. simpl in *.
    rewrite !elem_of_cons, elem_of_nil in Hc. rewrite !elem_of_cons. tauto. }
  split; [exact Hf|]. split; [exact Hi|]. split; [exact Hnd|]. split; [exact Hin|].
  exact (encode_decode_any_tree tree_ab (str "abba") Hf Hi Hnd Hin).
Defined.

(** * Encoding and decoding piece by piece *)

(** X8. [encode] works symbol by symbol: although it inserts every missing
    symbol into its copy of the table as it goes, the encoding of a
    concatenation of two texts is the concatenation of their encodings. *)
Theorem encode_app (codes : gmap ascii (list ascii)) (s1 s2 : list ascii) :
  exists b1 b2,
    encode codes s1 = Returns b1 /\
    encode codes s2 = Returns b2 /\
    encode codes (s1 ++ s2) = Returns (b1 ++ b2).
Proof.
  exists (s1 ≫= code_in codes), (s2 ≫= code_in codes).
  unfold encode. rewrite !encode_loop_spec, bind_app. done.
Qed.

Lemma decode_loop_acc fuel root : forall it w,
  decode_loop fuel root it w
  = obind (decode_loop fuel root it []) (fun x => Returns (w ++ x)).
Proof.
  induction fuel as [|fuel IH]; intros it w; destruct it as [|b it]; simpl;
    try done; try (by rewrite app_nil_r).
  destruct (walk root (b :: it)) as [[lf it']| | |]; simpl; try done.
  destruct (symbol lf) as [c| | |]; simpl; try done.
  rewrite (IH it' (w ++ [c])), (IH it' [c]).
  destruct (decode_loop fuel root it' []); simpl; try done.
  by rewrite <-app_assoc.
Qed.

Lemma decode_loop_app_fuel root f1 : forall it1 w x f it2,
  decode_loop f1 root it1 w = Returns x ->
  exists f', (f <= f')%nat /\
    decode_loop (f1 + f) root (it1 ++ it2) w = decode_loop f' root it2 x.
Proof.
  induction f1 as [|f1 IH]; intros it1 w x f it2 Hd;
    destruct it1 as [|b it1]; simpl in Hd; simplify_eq.
  - exists f. done.
  - exists (S f1 + f)%nat. split; [lia|done].
  - destruct (walk root (b :: it1)) as [[lf it']| | |] eqn:Hw; simpl in Hd; try done.
    destruct (symbol lf) as [c| | |] eqn:Hs; simpl in Hd; try done.
    destruct (IH _ _ _ f it2 Hd) as (f' & Hf' & Heq). exists f'. split; [done|].
    change (S f1 + f)%nat with (S (f1 + f)).
    change ((b :: it1) ++ it2) with (b :: (it1 ++ it2)). cbn [decode_loop].
    change (b :: (it1 ++ it2)) with ((b :: it1) ++ it2).
    rewrite (walk_app _ _ _ _ it2 Hw). simpl. rewrite Hs. simpl. done.
Qed.

(** Any fuel of at least the length of the input gives what [decode] gives. *)
Lemma decode_loop_enough root bits w fuel :
  (length bits <= fuel)%nat ->
  decode_loop fuel root bits w
  = obind (decode root bits) (fun x => Returns (w ++ x)).
Proof.
  intros Hf. rewrite decode_loop_acc. f_equal. unfold decode.
  destruct (decode_loop (length bits) root bits []) as [x|e|u|] eqn:E.
  - rewrite <-E. apply decode_loop_stable; [by rewrite E|done].
  - rewrite <-E. apply decode_loop_stable; [by rewrite E|done].
  - rewrite <-E. apply decode_loop_stable; [by rewrite E|done].
  - by apply decode_diverges.
Qed.

(** X9. [decode] works code by code: when it returns on a bit-string, its
    outcome on that bit-string followed by a second one is its outcome on
    the second one, with the symbols already decoded in front. *)
Theorem decode_app (root : Node_ptr) (b1 b2 w1 : list ascii) :
  decode root b1 = Returns w1 ->
  decode root (b1 ++ b2) = obind (decode root b2) (fun w2 => Returns (w1 ++ w2)).
Proof.
  intros Hd. unfold decode at 1. rewrite length_app.
  destruct (decode_loop_app_fuel root (length b1) b1 [] w1 (length b2) b2 Hd)
    as (f' & Hf' & ->).
  by apply decode_loop_enough.
Qed.

Lemma decode_app_witness :
  decode tree_aaabbc (str "1") = Returns (str "c") /\
  decode tree_aaabbc (str "1" ++ str "0001") = Returns (str "cab").
Proof.
  assert (H : decode tree_aaabbc (str "1") = Returns (str "c"))
    by (vm_compute; reflexivity).
  split; [exact H|]. rewrite (decode_app tree_aaabbc _ (str "0001") _ H).
  vm_compute. reflexivity.
Defined.

(** * Allocation and release *)

(** The loop invariant lemma of [huffman] once more, for properties that
    depend on the number of allocations made. *)
Lemma huffman_loop_inv_count alloc (I : nat -> list Node_ptr -> Prop) :
  (forall k ts ts', ts ≡ₚ ts' -> I k ts -> I k ts') ->
  (forall k x y rest, I k (rest ++ [y; x]) -> I (S k) (rest ++ [merged (alloc k) x y])) ->
  (forall k ts, I k ts -> Forall (fun t => t <> NULL) ts) ->
  forall fuel (ts : list Node_ptr) k,
    ts <> [] -> (length ts <= S fuel)%nat -> I k ts ->
    exists t, huffman_loop alloc fuel ts k = Returns (t, (k + (length ts - 1))%nat) /\
              I (k + (length ts - 1))%nat [t].
Proof.
  intros I_perm I_merge I_nonnull.
  induction fuel as [|fuel IH]; intros ts k Hne Hlen HI; simpl;
    destruct (decide (1 < length ts)%nat) as [Hgt|Hle]; try lia.
  - destruct ts as [|t [|? ?]]; simpl in *; try done; try lia.
    exists t. unfold lift; simpl. rewrite Nat.add_0_r. done.
  - destruct (huffman_body_spec alloc ts k) as (rest & y & x & Hp & Hb);
      [lia|by apply (I_nonnull k)|].
    unfold bind. rewrite Hb. simpl.
    pose proof (Permutation_length Hp) as Hl. rewrite length_app in Hl. simpl in Hl.
    destruct (IH (rest ++ [merged (alloc k) x y]) (S k)) as (t & Ht & HIt).
    + by destruct rest.
    + rewrite length_app. simpl. lia.
    + apply I_merge. by apply (I_perm k ts).
    + assert (E : (S k + (length (rest ++ [merged (alloc k) x y]) - 1)
                   = k + (length ts - 1))%nat)
        by (rewrite length_app; simpl; lia).
      rewrite E in Ht, HIt. exists t. split; [exact Ht|exact HIt].
  - destruct ts as [|t [|? ?]]; simpl in *; try done; try lia.
    exists t. unfold lift; simpl. rewrite Nat.add_0_r. done.
Qed.

Lemma release_acc t : forall freed, release t freed = freed ++ release t [].
Proof.
  induction t as [|p w c l IHl r IHr]; intros freed; simpl.
  - by rewrite app_nil_r.
  - rewrite (IHr (release l freed)), (IHr (release l [])), (IHl freed).
    by rewrite <-!app_assoc.
Qed.

(** [release] deletes every node of the tree once. *)
Lemma release_addresses t : release t [] ≡ₚ addresses t.
Proof.
  unfold addresses. induction t as [|p w c l IHl r IHr]; simpl; [done|].
  rewrite release_acc, fmap_app, IHl, IHr.
  by rewrite <-Permutation_cons_append.
Qed.

Lemma addresses_merged p x y :
  addresses (merged p x y) = p :: addresses x ++ addresses y.
Proof. unfold addresses. simpl. by rewrite fmap_app. Qed.

(** The nodes of the tree [huffman] returns are the nodes of the trees it
    was given and the nodes it allocated. *)
Lemma huffman_addresses alloc (ts : list Node_ptr) k :
  ts <> [] -> Forall (fun t => t <> NULL) ts ->
  exists t,
    huffman alloc ts k = Returns (t, (k + (length ts - 1))%nat) /\
    addresses t ≡ₚ (ts ≫= addresses) ++ (alloc <$> seq k (length ts - 1)).
Proof.
  intros Hne Hnn.
  destruct (huffman_loop_inv_count alloc
    (fun k' ts' => Forall (fun t => t <> NULL) ts' /\ (k <= k')%nat /\
       ts' ≫= addresses ≡ₚ (ts ≫= addresses) ++ (alloc <$> seq k (k' - k))))
    with (fuel := length ts) (ts := ts) (k := k) as (t & Ht & _ & _ & Ha).
  - intros k' ts1 ts2 Hp (H1 & H2 & H3). by rewrite <-Hp.
  - intros k' x y rest (H1 & H2 & H3). split; [by apply nonnull_merge|].
    split; [lia|].
    replace (S k' - k)%nat with (S (k' - k)) by lia.
    rewrite seq_S, fmap_app, app_assoc, <-H3.
    replace (k + (k' - k))%nat with k' by lia.
    rewrite !bind_app, (bind_cons _ y [x]), !bind_singleton, addresses_merged.
    change (alloc <$> [k']) with [alloc k'].
    rewrite <-!app_assoc. apply Permutation_app_head.
    rewrite (Permutation_app_comm (addresses x)), app_assoc.
    apply Permutation_cons_append.
  - by intros k' ts' (H1 & _).
  - done.
  - lia.
  - split; [done|]. split; [lia|]. rewrite Nat.sub_diag. simpl. by rewrite app_nil_r.
  - exists t. split; [done|]. rewrite bind_singleton in Ha.
    rewrite Ha. by replace (k + (length ts - 1) - k)%nat with (length ts - 1)%nat by lia.
Qed.

(** X10. For every non-empty text, the nodes [release] deletes, called on
    the tree built for the text, are exactly the nodes allocated while
    building it, each deleted once: twice the number of distinct symbols,
    minus one. *)
Theorem release_frees_what_was_allocated (alloc : nat -> addr) (s : list ascii) (k : nat) :
  s <> [] ->
  exists t,
    let n := size (freq s) in
    tree_of alloc s k = Returns (t, (k + (2 * n - 1))%nat) /\
    release t [] ≡ₚ alloc <$> seq k (2 * n - 1).
Proof.
  intros Hne. unfold tree_of, bind.
  pose proof (map_iter_perm (freq s)) as Hp.
  unfold nodes. rewrite nodes_loop_imap. simpl.
  set (its := map_iter (freq s)) in *.
  set (ns := imap (fun i cw => At (alloc (k + i)%nat) cw.2 cw.1 NULL NULL) its).
  assert (Hsize : length its = size (freq s)).
  { by rewrite (Permutation_length Hp), length_map_to_list. }
  assert (Hlen : length ns = size (freq s)) by (unfold ns; by rewrite length_imap).
  assert (Hpos : (0 < size (freq s))%nat).
  { destruct s as [|c s]; [done|].
    assert (Hc : c ∈ (map_iter (freq (c :: s))).*1)
      by (apply elem_of_map_iter, freq_keys; by left).
    fold its in Hc. rewrite <-Hsize. destruct its; [by apply elem_of_nil in Hc|simpl; lia]. }
  assert (Hnn : Forall (fun t => t <> NULL) ns).
  { apply Forall_forall. intros t [i Hi]%list_elem_of_lookup.
    unfold ns in Hi. rewrite list_lookup_imap in Hi.
    destruct (its !! i); simpl in Hi; by simplify_eq. }
  assert (Haddr : ns ≫= addresses = alloc <$> seq k (length its)).
  { unfold ns. clear. revert k. induction its as [|cw its IH]; intros k; [done|].
    rewrite imap_cons, bind_cons. simpl. rewrite Nat.add_0_r. f_equal.
    rewrite <-IH. f_equal. apply imap_ext. intros i x _. simpl.
    do 2 f_equal. lia. }
  destruct (huffman_addresses alloc ns (k + size (freq s))%nat) as (t & Ht & Ha).
  { intros E. rewrite E in Hlen. simpl in Hlen. lia. }
  { done. }
  exists t. simpl. rewrite Hsize, Ht. split.
  - do 2 f_equal. lia.
  - rewrite release_addresses, Ha, Haddr, Hsize, Hlen, <-fmap_app.
    rewrite <-seq_app.
    by replace (size (freq s) + (size (freq s) - 1))%nat
      with (size (freq s) + (size (freq s) + 0) - 1)%nat by lia.
Qed.

Lemma release_frees_what_was_allocated_witness :
  hello <> [] /\
  exists t,
    tree_of bump hello 0%nat = Returns (t, 19%nat) /\
    release t [] ≡ₚ bump <$> seq 0 19.
Proof.
  assert (H : hello <> []) by discriminate.
  assert (E : size (freq hello) = 10%nat) by (vm_compute; reflexivity).
  split; [exact H|].
  destruct (release_frees_what_was_allocated bump hello 0%nat H) as (t & Ht).
  cbv zeta in Ht. rewrite E in Ht. exists t. exact Ht.
Defined.

(** * The tree of a text: weights and encoded length *)

Lemma weighted_sum_perm g L1 L2 : L1 ≡ₚ L2 -> weighted_sum g L1 = weighted_sum g L2.
Proof. intros Hp. unfold weighted_sum. apply total_perm. by rewrite Hp. Qed.

Lemma total_cons z ws : total (z :: ws) = z + total ws.
Proof. done. Qed.

Lemma total_nil : total [] = 0.
Proof. done. Qed.

Lemma weighted_sum_cons g c n L :
  weighted_sum g ((c, n) :: L) = n * g c + weighted_sum g L.
Proof. done. Qed.

Lemma weighted_sum_insert g (hist : gmap ascii Z) x v :
  weighted_sum g (map_to_list (<[x := v]> hist))
  = weighted_sum g (map_to_list hist) + (v - default 0 (hist !! x)) * g x.
Proof.
  destruct (hist !! x) as [v0|] eqn:Hx; simpl.
  - rewrite <-insert_delete_eq.
    rewrite (weighted_sum_perm g _ _ (map_to_list_insert (delete x hist) x v
               (lookup_delete_eq hist x))).
    rewrite <-(weighted_sum_perm g _ _ (map_to_list_delete hist x v0 Hx)).
    rewrite !weighted_sum_cons. lia.
  - rewrite (weighted_sum_perm g _ _ (map_to_list_insert hist x v Hx)).
    rewrite weighted_sum_cons. lia.
Qed.

Lemma freq_step_value (hist : gmap ascii Z) x c :
  default 0 (hist !! x) + 1 <= INT_MAX -> 0 <= default 0 (hist !! x) ->
  default 0 (freq_step hist x !! c)
  = default 0 (hist !! c) + (if decide (x = c) then 1 else 0).
Proof.
  intros H1 H0. unfold freq_step. destruct (decide (x = c)) as [->|Hne].
  - rewrite lookup_insert_eq. simpl. apply int_wrap_id. unfold INT_MAX in *. lia.
  - rewrite lookup_insert_ne by done. lia.
Qed.

(** Summing [g] over a histogram, count by count, is summing it over the
    text, symbol by symbol. *)
Lemma freq_fold_sum g w : forall hist : gmap ascii Z,
  (forall c, 0 <= default 0 (hist !! c) /\ default 0 (hist !! c) + occ c w <= INT_MAX) ->
  weighted_sum g (map_to_list (foldl freq_step hist w))
  = weighted_sum g (map_to_list hist) + total (g <$> w).
Proof.
  induction w as [|x w IH]; intros hist Hroom; cbn [foldl].
  - unfold total. simpl. lia.
  - assert (Hx : default 0 (hist !! x) + 1 <= INT_MAX /\ 0 <= default 0 (hist !! x)).
    { destruct (Hroom x) as [H0 H1]. rewrite occ_cons, decide_True in H1 by done.
      pose proof (occ_nonneg x w). lia. }
    destruct Hx as [Hx1 Hx0]. rewrite IH.
    + unfold freq_step at 1. rewrite weighted_sum_insert.
      rewrite int_wrap_id by (unfold INT_MAX in *; lia).
      rewrite fmap_cons, total_cons. lia.
    + intros c. rewrite freq_step_value by done. destruct (Hroom c) as [H0 H1].
      rewrite occ_cons in H1. destruct (decide (x = c)); lia.
Qed.

Lemma freq_sum g (w : list ascii) :
  Z.of_nat (length w) <= INT_MAX ->
  weighted_sum g (map_to_list (freq w)) = total (g <$> w).
Proof.
  intros Hlen. unfold freq. rewrite freq_fold_sum.
  - rewrite map_to_list_empty. unfold weighted_sum, total. simpl. lia.
  - intros c. rewrite lookup_empty. simpl.
    pose proof (occ_le_length c w). pose proof (occ_nonneg c w). lia.
Qed.

Lemma freq_value_pos (w : list ascii) c n :
  Z.of_nat (length w) <= INT_MAX -> freq w !! c = Some n -> 0 < n.
Proof.
  intros Hlen Hn.
  pose proof (freq_fold_count w ∅) as Hc. unfold freq in *.
  specialize (Hc ltac:(intros c'; rewrite lookup_empty; simpl;
    pose proof (occ_le_length c' w); pose proof (occ_nonneg c' w); lia) c).
  rewrite Hn, lookup_empty in Hc. simpl in Hc.
  assert (Hin : c ∈ w) by (apply freq_keys; unfold freq; by rewrite Hn).
  pose proof (occ_pos c w Hin). lia.
Qed.

Lemma total_ones {A} (l : list A) : total ((fun _ => 1) <$> l) = Z.of_nat (length l).
Proof.
  induction l as [|x l IH]; [done|].
  rewrite fmap_cons, total_cons, IH. cbn [length]. lia.
Qed.

Lemma length_bind_total {A B} (f : A -> list B) (l : list A) :
  Z.of_nat (length (l ≫= f)) = total ((fun x => Z.of_nat (length (f x))) <$> l).
Proof.
  induction l as [|x l IH]; [done|].
  rewrite bind_cons, length_app, fmap_cons, total_cons, <-IH. lia.
Qed.

(** The weighted path length, leaf by leaf, when [h] gives the depth of
    the leaf of each symbol. *)
Lemma cost_at_leaves t : full t -> forall d (h : ascii -> Z),
  (forall c p, (c, p) ∈ codes_of t -> h c = d + Z.of_nat (length p)) ->
  cost_at d t = weighted_sum h (leaves t).
Proof.
  induction 1 as [p0 w c0|p0 w c0 l r Hl IHl Hr IHr]; intros d h Hh.
  - cbn [cost_at leaves is_null andb]. change (weighted_sum h [(c0, w)]) with (w * h c0 + 0).
    rewrite (Hh c0 []); [cbn [length]; lia|]. simpl. by apply list_elem_of_singleton.
  - simpl in *. destruct l as [|pl wl cl ll lr]; [by apply full_nonnull in Hl|].
    cbn [is_null andb] in *.
    unfold weighted_sum. rewrite fmap_app, total_app.
    rewrite (IHl (d + 1) h), (IHr (d + 1) h); [done| |].
    + intros c p Hp. rewrite (Hh c ("1"%char :: p)); [cbn [length]; lia|].
      apply elem_of_app. right. apply list_elem_of_fmap. by exists (c, p).
    + intros c p Hp. rewrite (Hh c ("0"%char :: p)); [cbn [length]; lia|].
      apply elem_of_app. left. apply list_elem_of_fmap. by exists (c, p).
Qed.

(** The tree built for a non-empty text is full and its leaves are the
    entries of the histogram. *)
Lemma tree_of_leaves alloc (s : list ascii) k :
  s <> [] ->
  exists t k',
    tree_of alloc s k = Returns (t, k') /\ full t /\
    leaves t ≡ₚ map_to_list (freq s).
Proof.
  intros Hne. unfold tree_of, bind.
  destruct (nodes_spec alloc (freq s) k) as (ns & -> & Hl & Hns). simpl.
  assert (Hnn : ns <> []).
  { intros ->. destruct s as [|c s]; [done|].
    assert (Hc : c ∈ (map_iter (freq (c :: s))).*1)
      by (apply elem_of_map_iter, freq_keys; by left).
    rewrite <-Hns in Hc. by apply elem_of_nil in Hc. }
  destruct (leaves_full_wrapped ns Hl) as [Hf Hw].
  destruct (huffman_loop_forest alloc (length ns) ns
              (k + length (map_iter (freq s)))%nat)
    as (t & Ht & Hft & _ & Hp); [done|lia|done|done|].
  unfold huffman. rewrite Ht. eexists _, _. split; [done|]. split; [done|].
  by rewrite Hp, Hns, map_iter_perm.
Qed.

Lemma freq_lookup_occ (w : list ascii) c n :
  Z.of_nat (length w) <= INT_MAX ->
  freq w !! c = Some n <-> c ∈ w /\ n = occ c w.
Proof.
  intros Hlen.
  pose proof (freq_fold_count w ∅) as Hc. unfold freq in *.
  specialize (Hc ltac:(intros c'; rewrite lookup_empty; simpl;
    pose proof (occ_le_length c' w); pose proof (occ_nonneg c' w); lia) c).
  rewrite lookup_empty in Hc. simpl in Hc. split.
  - intros Hn. split; [apply freq_keys; unfold freq; by rewrite Hn|].
    rewrite Hn in Hc. simpl in Hc. lia.
  - intros [Hin ->]. apply freq_keys in Hin as [m Hm]. unfold freq in Hm.
    rewrite Hm in *. simpl in Hc. f_equal. lia.
Qed.

(** The loop of [huffman] keeps the sum of the weights in the vector, as
    long as that sum fits an [int]. *)
Lemma huffman_loop_total alloc fuel (ts : list Node_ptr) k :
  ts <> [] -> (length ts <= S fuel)%nat ->
  Forall weighted ts -> total (wt <$> ts) <= INT_MAX ->
  exists t,
    huffman_loop alloc fuel ts k = Returns (t, (k + (length ts - 1))%nat) /\
    weighted t /\ wt t = total (wt <$> ts).
Proof.
  intros Hne Hlen Hw Ht.
  destruct (huffman_loop_inv alloc
    (fun ts' => Forall weighted ts' /\ total (wt <$> ts') = total (wt <$> ts)))
    with (fuel := fuel) (ts := ts) (k := k) as (t & Hr & Hwt & Htot); try done.
  - intros ts1 ts2 Hp [H1 H2]. split; [by rewrite <-Hp|].
    rewrite <-H2. apply total_perm. by rewrite Hp.
  - intros p x y rest [H1 H2].
    destruct (in_range_merge p x y rest) as [H1' _].
    { split; [done|]. by rewrite H2. }
    split; [done|]. rewrite <-H2.
    apply Forall_app in H1 as [Hw1 Hw2].
    inversion Hw2 as [|? ? Hy Hw3]; subst. inversion Hw3 as [|? ? Hx _]; subst.
    rewrite fmap_app, total_app in H2. cbn [fmap list_fmap] in H2.
    rewrite !total_cons, total_nil in H2.
    assert (0 <= total (wt <$> rest)).
    { apply total_nonneg, Forall_fmap. eapply Forall_impl; [done|].
      apply weighted_nonneg. }
    pose proof (weighted_nonneg _ Hx). pose proof (weighted_nonneg _ Hy).
    assert (Hid : int_wrap (wt x + wt y) = wt x + wt y).
    { apply int_wrap_id. unfold INT_MAX in *. lia. }
    rewrite !fmap_app, !total_app. unfold merged.
    cbn [fmap list_fmap wt]. rewrite !total_cons, total_nil, Hid. lia.
  - intros ts' [H1 _]. eapply Forall_impl; [done|].
    intros t Ht'. by apply full_nonnull, weighted_full.
  - exists t. split; [done|]. inversion Hwt; subst. split; [done|].
    rewrite <-Htot. unfold total. simpl. lia.
Qed.

(** X11. For every non-empty text of at most INT_MAX characters, the tree
    built for it has exactly one leaf per distinct symbol of the text,
    weighing the number of occurrences of the symbol; every internal node
    weighs what its two children weigh together; and the root weighs the
    length of the text. *)
Theorem tree_of_weights (alloc : nat -> addr) (s : list ascii) (k : nat) :
  s <> [] -> Z.of_nat (length s) <= INT_MAX ->
  exists t k',
    tree_of alloc s k = Returns (t, k') /\
    NoDup (leaves t).*1 /\
    (forall c n, (c, n) ∈ leaves t <-> c ∈ s /\ n = occ c s) /\
    weights_add t /\
    wt t = Z.of_nat (length s).
Proof.
  intros Hne Hlen.
  destruct (tree_of_leaves alloc s k Hne) as (t & k' & Ht & Hf & Hl).
  exists t, k'. split; [done|]. split; [|split].
  - rewrite Hl. apply NoDup_fst_map_to_list.
  - intros c n. rewrite Hl, elem_of_map_to_list. by apply freq_lookup_occ.
  - unfold tree_of, bind in Ht.
    destruct (nodes_spec alloc (freq s) k) as (ns & Hn & Hlf & Hns).
    rewrite Hn in Ht. simpl in Ht.
    assert (Hnn : ns <> []).
    { intros ->. simpl in Hns. symmetry in Hns.
      pose proof (map_iter_perm (freq s)) as Hp. rewrite Hns in Hp.
      apply Permutation_nil_l in Hp. symmetry in Hp.
      apply map_to_list_empty_iff in Hp.
      destruct s as [|c s]; [done|].
      assert (Hc : is_Some (freq (c :: s) !! c)) by (apply freq_keys; by left).
      rewrite Hp, lookup_empty in Hc. by destruct Hc. }
    assert (Hits : (fun t => (sym t, wt t)) <$> ns = map_iter (freq s)).
    { by rewrite <-leaves_of_leaves. }
    assert (Hwts : wt <$> ns = (map_iter (freq s)).*2).
    { rewrite <-Hits, <-list_fmap_compose. done. }
    assert (Htot : total (wt <$> ns) = Z.of_nat (length s)).
    { rewrite Hwts, <-total_ones, <-(freq_sum (fun _ => 1) s Hlen).
      rewrite <-(weighted_sum_perm _ _ _ (map_iter_perm (freq s))).
      unfold weighted_sum. f_equal. apply list_fmap_ext. intros i [c n] _. simpl. lia. }
    assert (Hw : Forall weighted ns).
    { apply Forall_forall. intros x Hx. rewrite Forall_forall in Hlf.
      destruct (Hlf x Hx) as (p & w & c & ->). constructor.
      assert (Hin : (c, w) ∈ map_iter (freq s)).
      { rewrite <-Hits. apply list_elem_of_fmap.
        exists (At p w c NULL NULL). by split. }
      rewrite map_iter_perm in Hin. apply elem_of_map_to_list in Hin.
      pose proof (freq_value_pos s c w Hlen Hin). lia. }
    destruct (huffman_loop_total alloc (length ns) ns
                (k + length (map_iter (freq s)))%nat) as (t' & Ht' & Hwt & Hroot);
      [done|lia|done|lia|].
    unfold huffman in Ht. rewrite Ht' in Ht. inversion Ht; subst t'.
    split; [by apply weighted_weights_add|]. by rewrite Hroot.
Qed.

Lemma tree_of_weights_witness :
  hello <> [] /\ Z.of_nat (length hello) <= INT_MAX /\
  exists t k', tree_of bump hello 0%nat = Returns (t, k') /\ wt t = 18.
Proof.
  assert (H1 : hello <> []) by discriminate.
  assert (H2 : Z.of_nat (length hello) <= INT_MAX) by (vm_compute; discriminate).
  split; [exact H1|]. split; [exact H2|].
  destruct (tree_of_weights bump hello 0%nat H1 H2) as (t & k' & Ht & _ & _ & _ & Hw).
  exists t, k'. split; [exact Ht|exact Hw].
Defined.

(** X12. For every non-empty text of at most INT_MAX characters, the
    number of bits [encode] returns for the text, with the table of the
    tree built for it, is the weighted path length of that tree. *)
Theorem encoded_length_is_cost (alloc : nat -> addr) (s : list ascii) (k : nat) :
  s <> [] -> Z.of_nat (length s) <= INT_MAX ->
  exists t k' tab bits,
    tree_of alloc s k = Returns (t, k') /\
    codetable t = Returns tab /\
    encode tab s = Returns bits /\
    Z.of_nat (length bits) = cost t.
Proof.
  intros Hne Hlen.
  destruct (tree_of_leaves alloc s k Hne) as (t & k' & Ht & Hf & Hl).
  set (tab := foldl (record []) ∅ (codes_of t)).
  exists t, k', tab, (s ≫= code_in tab).
  split; [done|]. split; [by apply codetab_spec|].
  split; [unfold encode; by rewrite encode_loop_spec|].
  assert (Hnd : NoDup (codes_of t).*1).
  { rewrite codes_of_symbols, Hl. apply NoDup_fst_map_to_list. }
  rewrite length_bind_total, <-(freq_sum _ s Hlen).
  rewrite <-(weighted_sum_perm _ _ _ Hl). symmetry.
  apply (cost_at_leaves t Hf 0). intros c p Hp.
  unfold code_in, tab. rewrite (lookup_record_in [] _ _ _ p Hnd Hp). simpl. lia.
Qed.

Lemma encoded_length_is_cost_witness :
  hello <> [] /\ Z.of_nat (length hello) <= INT_MAX /\
  exists t k' tab bits,
    tree_of bump hello 0%nat = Returns (t, k') /\
    codetable t = Returns tab /\
    encode tab hello = Returns bits /\
    Z.of_nat (length bits) = cost t.
Proof.
  assert (H1 : hello <> []) by discriminate.
  assert (H2 : Z.of_nat (length hello) <= INT_MAX) by (vm_compute; discriminate).
  split; [exact H1|]. split; [exact H2|].
  exact (encoded_length_is_cost bump hello 0%nat H1 H2).
Defined.

(** X13. For every non-empty text, the table of the tree built for it has
    an entry exactly for the symbols that occur in the text: encoding the
    text never meets a missing symbol. *)
Theorem table_keys_are_the_symbols (alloc : nat -> addr) (s : list ascii) (k : nat) :
  s <> [] ->
  exists t k' tab,
    tree_of alloc s k = Returns (t, k') /\
    codetable t = Returns tab /\
    forall c, is_Some (tab !! c) <-> c ∈ s.
Proof.
  intros Hne.
  destruct (tree_of_leaves alloc s k Hne) as (t & k' & Ht & Hf & Hl).
  exists t, k', (foldl (record []) ∅ (codes_of t)).
  split; [done|]. split; [by apply codetab_spec|].
  assert (Hsyms : (codes_of t).*1 ≡ₚ (map_to_list (freq s)).*1).
  { by rewrite codes_of_symbols, Hl. }
  assert (Hnd : NoDup (codes_of t).*1).
  { rewrite Hsyms. apply NoDup_fst_map_to_list. }
  assert (Hkeys : forall c, c ∈ (codes_of t).*1 <-> c ∈ s).
  { intros c. rewrite Hsyms, <-map_iter_perm, elem_of_map_iter. apply freq_keys. }
  intros c. rewrite <-Hkeys. split.
  - intros [p Hp]. apply lookup_record_inv in Hp as [(q & Hq & _)|Hp];
      [|by rewrite lookup_empty in Hp].
    apply list_elem_of_fmap. by exists (c, q).
  - intros ([c' q] & -> & Hq)%list_elem_of_fmap.
    rewrite (lookup_record_in [] _ _ _ q Hnd Hq). by eexists.
Qed.

Lemma table_keys_are_the_symbols_witness :
  hello <> [] /\
  exists t k' tab,
    tree_of bump hello 0%nat = Returns (t, k') /\
    codetable t = Returns tab /\
    forall c, is_Some (tab !! c) <-> c ∈ hello.
Proof.
  assert (H1 : hello <> []) by discriminate.
  split; [exact H1|]. exact (table_keys_are_the_symbols bump hello 0%nat H1).
Defined.

(** * Null pointers and degenerate roots *)

Lemma merge_null alloc a b k :
  a = NULL \/ b = NULL -> merge alloc a b k = Undefined NullDeref.
Proof. intros [->| ->]; [done|]. by destruct a. Qed.

Lemma huffman_body_null alloc (ts : list Node_ptr) k :
  (2 <= length ts)%nat -> NULL ∈ ts ->
  huffman_body alloc ts k = Undefined NullDeref \/
  exists ts', huffman_body alloc ts k = Returns (ts', S k) /\
              NULL ∈ ts' /\ (2 <= length ts')%nat /\
              length ts' = (length ts - 1)%nat.
Proof.
  intros Hn Hnull.
  destruct (scan_perm (length ts - 2) ts) as (ts1 & Hs & Hp); [done|lia|].
  pose proof (Permutation_length Hp) as Hl.
  destruct (split_last_two ts1) as (rest & y & x & ->); [lia|].
  rewrite length_app in Hl. simpl in Hl.
  destruct x as [|px wx cx xl xr]; [|destruct y as [|py wy cy yl yr]].
  - left. unfold huffman_body, bind, lift. rewrite Hs. simpl.
    unfold at_index. rewrite <-Hl.
    replace (length rest + 2 - 1)%nat with (length rest + 1)%nat by lia.
    replace (length rest + 2 - 2)%nat with (length rest + 0)%nat by lia.
    rewrite !lookup_app_r by lia.
    replace (length rest + 1 - length rest)%nat with 1%nat by lia.
    replace (length rest + 0 - length rest)%nat with 0%nat by lia.
    done.
  - left. unfold huffman_body, bind, lift. rewrite Hs. simpl.
    unfold at_index. rewrite <-Hl.
    replace (length rest + 2 - 1)%nat with (length rest + 1)%nat by lia.
    replace (length rest + 2 - 2)%nat with (length rest + 0)%nat by lia.
    rewrite !lookup_app_r by lia.
    replace (length rest + 1 - length rest)%nat with 1%nat by lia.
    replace (length rest + 0 - length rest)%nat with 0%nat by lia.
    done.
  - right. eexists. split.
    + apply huffman_body_of_scan; [exact Hs|lia|done|done].
    + rewrite <-Hp in Hnull. apply elem_of_app in Hnull as [Hr|Hr].
      * split; [apply elem_of_app; by left|]. rewrite !length_app.
        destruct rest; [by apply elem_of_nil in Hr|simpl in *; lia].
      * rewrite !elem_of_cons, elem_of_nil in Hr. by destruct Hr as [?|[?|?]].
Qed.

(** X14. A null pointer among two or more nodes makes [huffman]
    dereference it: whatever the other nodes and the addresses, the call
    has undefined behaviour and returns no tree. *)
Theorem huffman_null_element (alloc : nat -> addr) (ts : list Node_ptr) (k : nat) :
  NULL ∈ ts -> (2 <= length ts)%nat ->
  huffman alloc ts k = Undefined NullDeref.
Proof.
  intros Hnull Hn. unfold huffman.
  assert (H : forall fuel (ts : list Node_ptr) k,
    NULL ∈ ts -> (2 <= length ts)%nat -> (length ts <= S fuel)%nat ->
    huffman_loop alloc fuel ts k = Undefined NullDeref).
  { clear. induction fuel as [|fuel IH]; intros ts k Hnull Hn Hlen; [lia|].
    simpl. rewrite decide_True by lia. unfold bind.
    destruct (huffman_body_null alloc ts k Hn Hnull)
      as [->|(ts' & -> & Hnull' & Hn' & Hlen')]; [done|].
    simpl. apply IH; [done|done|lia]. }
  apply H; [done|done|lia].
Qed.

Lemma huffman_null_element_witness :
  NULL ∈ [leaf_a; NULL; leaf_c] /\ (2 <= length [leaf_a; NULL; leaf_c])%nat /\
  huffman bump [leaf_a; NULL; leaf_c] 3%nat = Undefined NullDeref.
Proof.
  assert (H1 : NULL ∈ [leaf_a; NULL; leaf_c]) by (repeat constructor).
  assert (H2 : (2 <= length [leaf_a; NULL; leaf_c])%nat) by (simpl; lia).
  split; [exact H1|]. split; [exact H2|].
  exact (huffman_null_element bump _ 3%nat H1 H2).
Defined.

(** X15. With a single leaf as root, [decode] returns the empty text on
    the empty bit-string, and on every other bit-string its loop never
    ends: it appends the leaf's symbol and leaves the iterator where it
    is, so that no number of passes is enough. *)
Theorem decode_leaf_root (p : addr) (w : Z) (c : ascii) (bits : list ascii) :
  bits <> [] ->
  decode (At p w c NULL NULL) [] = Returns [] /\
  decode (At p w c NULL NULL) bits = OutOfFuel /\
  forall fuel, decode_loop fuel (At p w c NULL NULL) bits [] = OutOfFuel.
Proof.
  intros Hb. split; [done|]. split.
  - by apply decode_leaf_diverges.
  - intros fuel. by apply decode_leaf_diverges.
Qed.

Lemma decode_leaf_root_witness :
  str "0" <> [] /\
  forall fuel, decode_loop fuel leaf_a (str "0") [] = OutOfFuel.
Proof.
  assert (H : str "0" <> []) by discriminate.
  split; [exact H|].
  destruct (decode_leaf_root 4096 3 "a"%char (str "0") H) as (_ & _ & Hd).
  exact Hd.
Defined.
